(** * vbtokenizer: a byte-level BPE tokenizer

    Shallow embedding of [src/vbtokenizer/tokenizer.py] (class
    [SimpleTokenizer]) and the properties of its specification.

    Conventions of the embedding:
    - a Python [int] is a [Z]; a [bytes] object and a token list are
      [list Z]; a [str] is the list of its code points ([list Z]);
    - [merges] and [special_tokens] are insertion-ordered dictionaries,
      modelled as association lists with Python's update-in-place rule;
      [vocab] is only ever looked up, and is a [gmap Z (list Z)];
    - a method that may raise returns a [result]; a method that mutates
      [self] also returns the tokenizer as it is left behind, including
      when it raises. *)

From stdpp Require Import gmap strings list sorting.
From Stdlib Require Import ZArith Lia.

Local Open Scope Z_scope.
Set Warnings "-clear-no-such-hyp".

(** ** Exceptions and results *)

Inductive exn : Type :=
  | ValueError
  | KeyError
  | UnicodeEncodeError
  | UnicodeDecodeError
  | FileNotFoundError
  | NotADirectoryError.

Inductive result (A : Type) : Type :=
  | Ok (a : A)
  | Raise (e : exn).
Arguments Ok {A} a.
Arguments Raise {A} e.

(** [result] is used through stdpp's monad notation [x ← r; k]. *)
#[global] Instance result_ret : MRet result := fun A a => Ok a.
#[global] Instance result_bind : MBind result := fun A B k r =>
  match r with
  | Ok a => k a
  | Raise e => Raise e
  end.

(** ** Insertion-ordered dictionaries *)

Section odict.
Context {K V : Type} `{EqDecision K}.

(** [d.get(k)] *)
Fixpoint od_get (k : K) (d : list (K * V)) : option V :=
  match d with
  | [] => None
  | (k', v) :: r => if decide (k = k') then Some v else od_get k r
  end.

(** [d[k] = v]: an existing key keeps its position, a new key goes last. *)
Fixpoint od_set (k : K) (v : V) (d : list (K * V)) : list (K * V) :=
  match d with
  | [] => [(k, v)]
  | (k', v') :: r =>
      if decide (k = k') then (k', v) :: r else (k', v') :: od_set k v r
  end.

Definition od_keys (d : list (K * V)) : list K := d.*1.
End odict.

(** ** The single-merge primitive *)

(** The [while i < len(tokens)] loop of [_merge_bytepairs]; [fuel] bounds
    the number of iterations. In [tokens[i]] and [tokens[i + 1]] the index
    is in range by the guards before them, so the default of [nth] is
    never returned. *)
Fixpoint merge_loop (fuel : nat) (tokens : list Z) (pair : Z * Z) (index : Z)
    (i : nat) (new_tokens : list Z) : list Z :=
  match fuel with
  | O => new_tokens
  | S fuel' =>
      if (i <? length tokens)%nat then
        if (i <? length tokens - 1)%nat
           && (nth i tokens 0 =? pair.1)
           && (nth (i + 1) tokens 0 =? pair.2)
        then merge_loop fuel' tokens pair index (i + 2) (new_tokens ++ [index])
        else merge_loop fuel' tokens pair index (i + 1)
               (new_tokens ++ [nth i tokens 0])
      else new_tokens
  end.

Definition _merge_bytepairs (tokens : list Z) (pair : Z * Z) (index : Z)
    : list Z :=
  merge_loop (length tokens) tokens pair index 0 [].

(** The specification's wording of the same primitive: scan left to right,
    replace an adjacent [a, b] by [index] and resume after it. *)
Fixpoint replace_pairs_spec (a b index : Z) (tokens : list Z) : list Z :=
  match tokens with
  | [] => []
  | t :: rest =>
      match rest with
      | t' :: rest' =>
          if (t =? a) && (t' =? b)
          then index :: replace_pairs_spec a b index rest'
          else t :: replace_pairs_spec a b index rest
      | [] => [t]
      end
  end.

(** ** UTF-8 ([str.encode], [bytes.decode]) *)

(** A code point that UTF-8 can encode: a Unicode scalar value. A Python
    [str] may also hold lone surrogates, on which [encode] raises. *)
Definition is_scalar (c : Z) : bool :=
  ((0 <=? c) && (c <? 0xD800)) || ((0xE000 <=? c) && (c <=? 0x10FFFF)).

Definition utf8_encode_cp (c : Z) : list Z :=
  if c <? 0x80 then [c]
  else if c <? 0x800 then [0xC0 + c / 64; 0x80 + c mod 64]
  else if c <? 0x10000 then
    [0xE0 + c / 4096; 0x80 + (c / 64) mod 64; 0x80 + c mod 64]
  else
    [0xF0 + c / 262144; 0x80 + (c / 4096) mod 64;
     0x80 + (c / 64) mod 64; 0x80 + c mod 64].

(** [s.encode("utf-8")] *)
Definition str_encode (s : list Z) : result (list Z) :=
  if forallb is_scalar s then Ok (flat_map utf8_encode_cp s)
  else Raise UnicodeEncodeError.

Definition in_range (lo hi b : Z) : bool := (lo <=? b) && (b <=? hi).
Definition is_cont (b : Z) : bool := in_range 0x80 0xBF b.

(** Range of the byte that may follow a lead byte (well-formed UTF-8 byte
    sequences: no overlong forms, no surrogates, nothing above U+10FFFF). *)
Definition second_lo (b0 : Z) : Z :=
  if b0 =? 0xE0 then 0xA0 else if b0 =? 0xF0 then 0x90 else 0x80.
Definition second_hi (b0 : Z) : Z :=
  if b0 =? 0xED then 0x9F else if b0 =? 0xF4 then 0x8F else 0xBF.

(** The decoder, one output per decoded character or per malformed
    subsequence ([None]). A malformed subsequence is the longest prefix of
    a well-formed sequence, or a single byte. *)
Fixpoint utf8_decode_steps (bs : list Z) : list (option Z) :=
  match bs with
  | [] => []
  | b0 :: r0 =>
      if b0 <? 0x80 then Some b0 :: utf8_decode_steps r0
      else if in_range 0xC2 0xDF b0 then
        match r0 with
        | b1 :: r1 =>
            if is_cont b1
            then Some ((b0 - 0xC0) * 64 + (b1 - 0x80)) :: utf8_decode_steps r1
            else None :: utf8_decode_steps r0
        | [] => [None]
        end
      else if in_range 0xE0 0xEF b0 then
        match r0 with
        | b1 :: r1 =>
            if in_range (second_lo b0) (second_hi b0) b1 then
              match r1 with
              | b2 :: r2 =>
                  if is_cont b2
                  then Some ((b0 - 0xE0) * 4096 + (b1 - 0x80) * 64
                             + (b2 - 0x80)) :: utf8_decode_steps r2
                  else None :: utf8_decode_steps r1
              | [] => [None]
              end
            else None :: utf8_decode_steps r0
        | [] => [None]
        end
      else if in_range 0xF0 0xF4 b0 then
        match r0 with
        | b1 :: r1 =>
            if in_range (second_lo b0) (second_hi b0) b1 then
              match r1 with
              | b2 :: r2 =>
                  if is_cont b2 then
                    match r2 with
                    | b3 :: r3 =>
                        if is_cont b3
                        then Some ((b0 - 0xF0) * 262144 + (b1 - 0x80) * 4096
                                   + (b2 - 0x80) * 64 + (b3 - 0x80))
                             :: utf8_decode_steps r3
                        else None :: utf8_decode_steps r2
                    | [] => [None]
                    end
                  else None :: utf8_decode_steps r1
              | [] => [None]
              end
            else None :: utf8_decode_steps r0
        | [] => [None]
        end
      else None :: utf8_decode_steps r0
  end.

Definition replacement_character : Z := 0xFFFD.

(** [bs.decode("utf-8", errors="replace")] *)
Definition bytes_decode_replace (bs : list Z) : list Z :=
  default replacement_character <$> utf8_decode_steps bs.

(** [bs.decode("utf-8")], the strict decoder used by text-mode files. *)
Fixpoint all_decoded (steps : list (option Z)) : result (list Z) :=
  match steps with
  | [] => Ok []
  | Some c :: r => s ← all_decoded r; Ok (c :: s)
  | None :: _ => Raise UnicodeDecodeError
  end.

Definition bytes_decode_strict (bs : list Z) : result (list Z) :=
  all_decoded (utf8_decode_steps bs).

(** ** The tokenizer object *)

Record tokenizer : Type := Tokenizer {
  merges : list ((Z * Z) * Z);
  special_tokens : list (list Z * Z);
  vocab : gmap Z (list Z)
}.

(** *** [_build_vocab] *)

(** [{idx: bytes([idx]) for idx in range(256)}] *)
Definition byte_vocab : gmap Z (list Z) :=
  list_to_map ((fun idx => (idx, [idx])) <$> seqZ 0 256).

(** [for (p0, p1), idx in self.merges.items(): vocab[idx] = vocab[p0] + vocab[p1]] *)
Fixpoint vocab_add_merges (items : list ((Z * Z) * Z)) (vocab : gmap Z (list Z))
    : result (gmap Z (list Z)) :=
  match items with
  | [] => Ok vocab
  | ((p0, p1), idx) :: rest =>
      match vocab !! p0, vocab !! p1 with
      | Some x, Some y => vocab_add_merges rest (<[idx := x ++ y]> vocab)
      | _, _ => Raise KeyError
      end
  end.

(** [for special_token, idx in self.special_tokens.items(): ...] *)
Fixpoint vocab_add_special (items : list (list Z * Z)) (vocab : gmap Z (list Z))
    : result (gmap Z (list Z)) :=
  match items with
  | [] => Ok vocab
  | (special_token, idx) :: rest =>
      match str_encode special_token with
      | Ok bs => vocab_add_special rest (<[idx := bs]> vocab)
      | Raise e => Raise e
      end
  end.

Definition _build_vocab (self : tokenizer) : result (gmap Z (list Z)) :=
  vocab ← vocab_add_merges (merges self) byte_vocab;
  vocab_add_special (special_tokens self) vocab.

(** [__init__]: with no merges and no special tokens [_build_vocab]
    returns the 256 single-byte entries. *)
Definition init : tokenizer :=
  {| merges := []; special_tokens := []; vocab := byte_vocab |}.

(** *** [_count_combinations] and the selection of the top pair *)

(** [sorted(items, key=key)]: stable, ascending in [key]. *)
Fixpoint insert_sorted {A} (key : A → Z) (x : A) (l : list A) : list A :=
  match l with
  | [] => [x]
  | y :: r => if key x <=? key y then x :: l else y :: insert_sorted key x r
  end.

Definition py_sorted {A} (key : A → Z) (l : list A) : list A :=
  foldr (insert_sorted key) [] l.

(** [dict(items)] *)
Definition py_dict {K V} `{EqDecision K} (items : list (K * V)) : list (K * V) :=
  fold_left (fun d kv => od_set kv.1 kv.2 d) items [].

Definition count_pair (counts : list ((Z * Z) * Z)) (pair : Z * Z)
    : list ((Z * Z) * Z) :=
  od_set pair (default 0 (od_get pair counts) + 1) counts.

(** [zip(tokens, tokens[1:])] *)
Definition adjacent_pairs (tokens : list Z) : list (Z * Z) :=
  zip tokens (tail tokens).

Definition _count_combinations (tokens : list Z) : list ((Z * Z) * Z) :=
  let counts := fold_left count_pair (adjacent_pairs tokens) [] in
  py_dict (py_sorted (fun x => - x.2) counts).

(** [max(keys, key=key)]: the first element whose key is maximal;
    [ValueError] on an empty iterable. *)
Definition py_max {A} (key : A → Z) (l : list A) : result A :=
  match l with
  | [] => Raise ValueError
  | x :: r =>
      Ok (fold_left (fun best y => if key best <? key y then y else best) r x)
  end.

(** [max(combinations, key=combinations.get)]; [get] is applied to keys
    of [combinations] only, so it never returns [None]. *)
Definition top_pair_of (combinations : list ((Z * Z) * Z)) : result (Z * Z) :=
  py_max (fun k => default 0 (od_get k combinations)) (od_keys combinations).

(** *** [train] *)

(** The [for i in range(vocab_size - 256)] loop with [n] iterations left.
    It returns the working [tokens] and [self.merges]; when an iteration
    raises, [self.merges] is returned as the loop left it. *)
Fixpoint train_loop (n : nat) (i : Z) (tokens : list Z)
    (merges : list ((Z * Z) * Z)) : result (list Z) * list ((Z * Z) * Z) :=
  match n with
  | O => (Ok tokens, merges)
  | S n' =>
      let combinations := _count_combinations tokens in
      match top_pair_of combinations with
      | Raise e => (Raise e, merges)
      | Ok top_pair =>
          let idx := 256 + i in
          train_loop n' (i + 1) (_merge_bytepairs tokens top_pair idx)
            (od_set top_pair idx merges)
      end
  end.

Definition train (corpus : list Z) (vocab_size : Z) (self : tokenizer)
    : result unit * tokenizer :=
  match str_encode corpus with
  | Raise e => (Raise e, self)
  | Ok tokens =>
      let '(r, merges') := train_loop (Z.to_nat (vocab_size - 256)) 0 tokens [] in
      let self1 := {| merges := merges'; special_tokens := special_tokens self;
                      vocab := vocab self |} in
      match r with
      | Raise e => (Raise e, self1)
      | Ok _ =>
          match _build_vocab self1 with
          | Raise e => (Raise e, self1)
          | Ok v => (Ok (), {| merges := merges';
                               special_tokens := special_tokens self;
                               vocab := v |})
          end
      end
  end.

(** *** [encode] and [decode] *)

Definition apply_merges (merges : list ((Z * Z) * Z)) (tokens : list Z)
    : list Z :=
  fold_left (fun tokens rule => _merge_bytepairs tokens (rule.1.1, rule.1.2) rule.2)
    merges tokens.

Definition encode (self : tokenizer) (input : list Z) : result (list Z) :=
  tokens ← str_encode input;
  Ok (apply_merges (merges self) tokens).

(** [self.vocab[idx] for idx in tokenized_input] *)
Fixpoint vocab_lookups (vocab : gmap Z (list Z)) (ids : list Z)
    : result (list (list Z)) :=
  match ids with
  | [] => Ok []
  | idx :: rest =>
      match vocab !! idx with
      | Some bs => bss ← vocab_lookups vocab rest; Ok (bs :: bss)
      | None => Raise KeyError
      end
  end.

(** [b"".join(self.vocab[idx] for idx in tokenized_input)] *)
Definition bytes_join (vocab : gmap Z (list Z)) (ids : list Z)
    : result (list Z) :=
  chunks ← vocab_lookups vocab ids; Ok (concat chunks).

Definition decode (self : tokenizer) (tokenized_input : list Z)
    : result (list Z) :=
  tokens ← bytes_join (vocab self) tokenized_input;
  Ok (bytes_decode_replace tokens).

(** *** [add_special_token] *)

(** What [msg.fail] prints. *)
Inductive message : Type :=
  | FailBeforeTraining
  | FailAlreadyExists (special_str : list Z).

Definition add_special_token (special_str : list Z) (self : tokenizer)
    : result unit * tokenizer * list message :=
  if (length (merges self) =? 0)%nat then (Ok (), self, [FailBeforeTraining])
  else
    match od_get special_str (special_tokens self) with
    | Some _ => (Ok (), self, [FailAlreadyExists special_str])
    | None =>
        (Ok (),
         {| merges := merges self;
            special_tokens :=
              od_set special_str
                (256 + Z.of_nat (length (merges self))
                     + Z.of_nat (length (special_tokens self)))
                (special_tokens self);
            vocab := vocab self |},
         [])
    end.

(** ** Text helpers used by [save] and [load] *)

Definition newline : Z := 10.
Definition carriage_return : Z := 13.
Definition space : Z := 32.

(** [s.split(sep)] for a one-character separator. *)
Fixpoint py_split (sep : Z) (s : list Z) : list (list Z) :=
  match s with
  | [] => [[]]
  | c :: r =>
      if c =? sep then [] :: py_split sep r
      else
        match py_split sep r with
        | part :: parts => (c :: part) :: parts
        | [] => [[c]]
        end
  end.

(** [str(n)] for an [int], as the f-strings of [save] format it. *)
Fixpoint digits_loop (fuel : nat) (n : Z) (acc : list Z) : list Z :=
  match fuel with
  | O => acc
  | S fuel' =>
      if n <? 10 then (48 + n) :: acc
      else digits_loop fuel' (n / 10) ((48 + n mod 10) :: acc)
  end.

Definition decimal_digits (n : Z) : list Z :=
  digits_loop (S (Z.to_nat (Z.log2 n))) n [].

Definition py_str_of_int (n : Z) : list Z :=
  if n <? 0 then 45 :: decimal_digits (- n) else decimal_digits n.

(** [int(s)] for a [str], as CPython converts it. Every character from
    U+007F on is first rewritten: white space to a space, a decimal digit
    of any script to the ASCII digit of its value, anything else to ["?"].
    Then the white space [" \t\n\v\f\r"] is skipped at both ends, and what
    is left must be an optional sign followed by decimal digits, where
    single underscores may separate digits; otherwise [ValueError].
    The decimal digits are those of the Unicode character database 14.0
    (CPython 3.11). The interpreter's limit on the number of digits of a
    conversion ([sys.set_int_max_str_digits]) is taken to be switched off,
    here and in [py_str_of_int]. *)

(** White space that the number parser skips. *)
Definition is_space (c : Z) : bool := in_range 9 13 c || (c =? 32).

(** White space from U+007F on ([str.isspace]). *)
Definition unicode_space (c : Z) : bool :=
  (c =? 0x85) || (c =? 0xA0) || (c =? 0x1680) || in_range 0x2000 0x200A c
  || (c =? 0x2028) || (c =? 0x2029) || (c =? 0x202F) || (c =? 0x205F)
  || (c =? 0x3000).

(** The digits zero of the scripts that have decimal digits; each is
    followed by its digits one to nine. *)
Definition unicode_decimal_zeros : list Z :=
  [
   0x660; 0x6F0; 0x7C0; 0x966; 0x9E6; 0xA66; 0xAE6;
   0xB66; 0xBE6; 0xC66; 0xCE6; 0xD66; 0xDE6; 0xE50;
   0xED0; 0xF20; 0x1040; 0x1090; 0x17E0; 0x1810; 0x1946;
   0x19D0; 0x1A80; 0x1A90; 0x1B50; 0x1BB0; 0x1C40; 0x1C50;
   0xA620; 0xA8D0; 0xA900; 0xA9D0; 0xA9F0; 0xAA50; 0xABF0;
   0xFF10; 0x104A0; 0x10D30; 0x11066; 0x110F0; 0x11136; 0x111D0;
   0x112F0; 0x11450; 0x114D0; 0x11650; 0x116C0; 0x11730; 0x118E0;
   0x11950; 0x11C50; 0x11D50; 0x11DA0; 0x16A60; 0x16AC0; 0x16B50;
   0x1D7CE; 0x1D7D8; 0x1D7E2; 0x1D7EC; 0x1D7F6; 0x1E140; 0x1E2F0;
   0x1E950; 0x1FBF0
  ].

(** The value of a decimal digit from U+007F on. *)
Definition unicode_decimal (c : Z) : option Z :=
  match find (fun zero => in_range zero (zero + 9) c) unicode_decimal_zeros with
  | Some zero => Some (c - zero)
  | None => None
  end.

Definition to_ascii_decimal (c : Z) : Z :=
  if c <? 127 then c
  else if unicode_space c then 32
  else
    match unicode_decimal c with
    | Some d => 48 + d
    | None => 63
    end.

Definition is_digit (c : Z) : bool := in_range 48 57 c.

Fixpoint lstrip (s : list Z) : list Z :=
  match s with
  | c :: r => if is_space c then lstrip r else s
  | [] => []
  end.

Definition strip (s : list Z) : list Z := rev (lstrip (rev (lstrip s))).

Fixpoint parse_digits (acc : Z) (after_digit : bool) (s : list Z)
    : result Z :=
  match s with
  | [] => if after_digit then Ok acc else Raise ValueError
  | c :: r =>
      if is_digit c then parse_digits (acc * 10 + (c - 48)) true r
      else if (c =? 95) && after_digit then parse_digits acc false r
      else Raise ValueError
  end.

Definition py_int (s : list Z) : result Z :=
  match strip (to_ascii_decimal <$> s) with
  | c :: r =>
      if c =? 45 then n ← parse_digits 0 false r; Ok (- n)
      else if c =? 43 then parse_digits 0 false r
      else parse_digits 0 false (c :: r)
  | [] => Raise ValueError
  end.

(** ** The file system seen by [save] and [load] *)

(** A tokenizer folder holds at most the two files of the layout, each a
    byte string. A path names a folder, a file that is not a folder, or
    nothing. The parent of a path always exists, so [mkdir] succeeds, and
    text files are written as on a POSIX system with a UTF-8 locale
    (no newline translation on output, UTF-8 as the default encoding). *)
Record folder : Type := Folder {
  tokenizer_merges_vm : option (list Z);
  tokenizer_special_vm : option (list Z)
}.

Inductive node : Type :=
  | Directory (d : folder)
  | RegularFile.

(** Text written line by line to a file opened with ["w"]: the bytes that
    reach the file, and the exception of the first [write] that fails. *)
Fixpoint write_lines (lines : list (list Z)) : list Z * result unit :=
  match lines with
  | [] => ([], Ok ())
  | line :: rest =>
      match str_encode line with
      | Ok bs => let '(more, r) := write_lines rest in (bs ++ more, r)
      | Raise e => ([], Raise e)
      end
  end.

(** Newline translation of a text file read with the default [newline]:
    ["\r\n"] and ["\r"] both arrive as ["\n"]. *)
Fixpoint universal_newlines (s : list Z) : list Z :=
  match s with
  | [] => []
  | c :: r =>
      if c =? carriage_return then
        match r with
        | c' :: r' =>
            if c' =? newline then newline :: universal_newlines r'
            else newline :: universal_newlines r
        | [] => [newline]
        end
      else c :: universal_newlines r
  end.

(** [open(path, "r", encoding="utf-8")] followed by [read()]. *)
Definition read_text (file : option (list Z)) : result (list Z) :=
  match file with
  | None => Raise FileNotFoundError
  | Some bs => s ← bytes_decode_strict bs; Ok (universal_newlines s)
  end.

(** [text.split("\n")[:-1]] *)
Definition file_rows (text : list Z) : list (list Z) :=
  removelast (py_split newline text).

(** *** [save] *)

Definition merge_row (key : Z * Z) : list Z :=
  py_str_of_int key.1 ++ [space] ++ py_str_of_int key.2 ++ [newline].

Definition special_row (special_token : list Z) : list Z :=
  special_token ++ [newline].

Definition save (folder_name : string) (self : tokenizer)
    (fs : gmap string node) : result unit * gmap string node :=
  let fs :=
    match fs !! folder_name with
    | None => <[folder_name := Directory (Folder None None)]> fs
    | Some _ => fs
    end in
  match fs !! folder_name with
  | Some (Directory d) =>
      let '(merges_bytes, r) := write_lines (merge_row <$> od_keys (merges self)) in
      let d := Folder (Some merges_bytes) (tokenizer_special_vm d) in
      match r with
      | Raise e => (Raise e, <[folder_name := Directory d]> fs)
      | Ok _ =>
          let '(special_bytes, r) :=
            write_lines (special_row <$> od_keys (special_tokens self)) in
          (r, <[folder_name :=
                  Directory (Folder (Some merges_bytes) (Some special_bytes))]> fs)
      end
  | _ => (Raise NotADirectoryError, fs)
  end.

(** *** [load] *)

(** [idx1, idx2 = row.split(" ")] and the two [int] conversions. *)
Definition parse_row (row : list Z) : result (Z * Z) :=
  match py_split space row with
  | [s1; s2] => idx1 ← py_int s1; idx2 ← py_int s2; Ok (idx1, idx2)
  | _ => Raise ValueError
  end.

(** The keys that the rows of a merges file name. *)
Fixpoint parse_rows (rows : list (list Z)) : result (list (Z * Z)) :=
  match rows with
  | [] => Ok []
  | row :: rest =>
      key ← parse_row row; keys ← parse_rows rest; Ok (key :: keys)
  end.

(** [for i, row in enumerate(merges)] from row number [i] on; returns
    [self.merges] as the loop leaves it, also when a row raises. *)
Fixpoint load_merges (rows : list (list Z)) (i : Z)
    (merges : list ((Z * Z) * Z)) : result unit * list ((Z * Z) * Z) :=
  match rows with
  | [] => (Ok (), merges)
  | row :: rest =>
      match parse_row row with
      | Raise e => (Raise e, merges)
      | Ok key => load_merges rest (i + 1) (od_set key (i + 256) merges)
      end
  end.

(** [for i, special_token in enumerate(special_tokens)] *)
Fixpoint load_special (rows : list (list Z)) (i : Z) (merges_length : Z)
    (special_tokens : list (list Z * Z)) : list (list Z * Z) :=
  match rows with
  | [] => special_tokens
  | special_token :: rest =>
      load_special rest (i + 1) merges_length
        (od_set special_token (i + 256 + merges_length) special_tokens)
  end.

Definition load (folder_name : string) (self : tokenizer)
    (fs : gmap string node) : result unit * tokenizer :=
  match fs !! folder_name with
  | None => (Raise ValueError, self)
  | Some RegularFile => (Raise NotADirectoryError, self)
  | Some (Directory d) =>
      match read_text (tokenizer_merges_vm d) with
      | Raise e => (Raise e, self)
      | Ok text =>
          let '(r, merges') := load_merges (file_rows text) 0 (merges self) in
          let self1 := {| merges := merges';
                          special_tokens := special_tokens self;
                          vocab := vocab self |} in
          match r with
          | Raise e => (Raise e, self1)
          | Ok _ =>
              let merges_length := Z.of_nat (length merges') in
              match read_text (tokenizer_special_vm d) with
              | Raise e => (Raise e, self1)
              | Ok text =>
                  let special' :=
                    load_special (file_rows text) 0 merges_length
                      (special_tokens self) in
                  let self2 := {| merges := merges'; special_tokens := special';
                                  vocab := vocab self |} in
                  match _build_vocab self2 with
                  | Raise e => (Raise e, self2)
                  | Ok v => (Ok (), {| merges := merges';
                                       special_tokens := special';
                                       vocab := v |})
                  end
              end
          end
      end
  end.

(** ** Well-formedness notions used in the statements *)

(** A byte string: every element is in [range(256)]. *)
Definition is_bytes (bs : list Z) : Prop := Forall (fun b => 0 ≤ b < 256) bs.

(** The vocabulary defines a merge rule: the bytes of the new token are
    those of the left token followed by those of the right token. *)
Definition rule_defined (vocab : gmap Z (list Z)) (rule : (Z * Z) * Z) : Prop :=
  ∃ x y, vocab !! rule.1.1 = Some x ∧ vocab !! rule.1.2 = Some y
         ∧ vocab !! rule.2 = Some (x ++ y).

(** The number that a string of decimal digits denotes, continuing [acc]. *)
Definition digits_value (ds : list Z) (acc : Z) : Z :=
  fold_left (fun a c => a * 10 + (c - 48)) ds acc.

(** The invariant of the training loop before iteration [i]: the rules
    learned so far carry the identifiers [256 .. 256 + i - 1] in order,
    every working token and every rule component is an earlier identifier,
    and no learned pair is left in the working sequence. *)
Record train_inv (i : Z) (tokens : list Z) (merges : list ((Z * Z) * Z))
    : Prop := TrainInv {
  inv_index : 0 ≤ i;
  inv_ids : merges.*2 = seqZ 256 i;
  inv_tokens : Forall (fun t => 0 ≤ t < 256 + i) tokens;
  inv_rules : Forall (fun r => 0 ≤ r.1.1 < r.2 ∧ 0 ≤ r.1.2 < r.2) merges;
  inv_absent : Forall (fun r => r.1 ∉ adjacent_pairs tokens) merges
}.

(** The number of occurrences of [p] in a list of pairs. *)
Fixpoint count_of (p : Z * Z) (pairs : list (Z * Z)) : Z :=
  match pairs with
  | [] => 0
  | q :: rest => (if decide (q = p) then 1 else 0) + count_of p rest
  end.

(** Every rule refers to identifiers that are known when [_build_vocab]
    reaches it: keys of the starting vocabulary or identifiers of earlier
    rules. *)
Definition refs_defined (vocab : gmap Z (list Z))
    (items : list ((Z * Z) * Z)) : Prop :=
  ∀ pre rule post, items = pre ++ rule :: post →
    (is_Some (vocab !! rule.1.1) ∨ rule.1.1 ∈ pre.*2)
    ∧ (is_Some (vocab !! rule.1.2) ∨ rule.1.2 ∈ pre.*2).

(** Identifiers follow positions: merges from 256 on, special tokens
    right after the merges, and no key occurs twice. *)
Definition contiguous_ids (self : tokenizer) : Prop :=
  NoDup (od_keys (merges self))
  ∧ (merges self).*2 = seqZ 256 (Z.of_nat (length (merges self)))
  ∧ NoDup (od_keys (special_tokens self))
  ∧ (special_tokens self).*2
    = seqZ (256 + Z.of_nat (length (merges self)))
        (Z.of_nat (length (special_tokens self))).

(** ** Concrete inputs of the scenarios *)

(** The corpus ["aaabdaaabac"] and the tokenizer trained on it with
    [vocab_size = 259]. *)
Definition scenario_corpus : list Z :=
  [97; 97; 97; 98; 100; 97; 97; 97; 98; 97; 99].

Definition trained_scenario : tokenizer := (train scenario_corpus 259 init).2.

(** The scenario tokenizer after [add_special_token("<s>")], and the
    vocabulary [_build_vocab] computes for it. *)
Definition scenario_with_special : tokenizer :=
  (add_special_token [60; 115; 62] trained_scenario).1.2.

Definition scenario_vocab : gmap Z (list Z) :=
  match _build_vocab scenario_with_special with
  | Ok v => v
  | Raise _ => ∅
  end.

(** A tokenizer trained on ["ab"] into which the saved state of a
    tokenizer trained on ["xy"] is loaded. *)
Definition loaded_twice : tokenizer :=
  (load "xy" (train [97; 98] 257 init).2
     (save "xy" (train [120; 121] 257 init).2 ∅).2).2.


(** * Properties *)

(** ** Results about the single-merge primitive *)

Lemma drop_nth_cons (l : list Z) (i : nat) :
  (i < length l)%nat → drop i l = nth i l 0 :: drop (S i) l.
Proof.
  revert i. induction l as [|x l IH]; intros [|i] Hi; simpl in *; try lia.
  - by rewrite drop_0.
  - apply IH. lia.
Qed.

Lemma merge_loop_spec fuel tokens a b index i acc :
  (length tokens - i ≤ fuel)%nat →
  merge_loop fuel tokens (a, b) index i acc
  = acc ++ replace_pairs_spec a b index (drop i tokens).
Proof.
  revert i acc. induction fuel as [|fuel IH]; intros i acc Hfuel; simpl.
  - rewrite drop_ge by lia. by rewrite app_nil_r.
  - destruct (Nat.ltb_spec i (length tokens)) as [Hi|Hi].
    + rewrite (drop_nth_cons tokens i Hi).
      destruct (Nat.ltb_spec i (length tokens - 1)) as [Hi1|Hi1]; simpl.
      * rewrite (drop_nth_cons tokens (S i)) by lia.
        replace (i + 1)%nat with (S i) by lia.
        destruct ((nth i tokens 0 =? a) && (nth (S i) tokens 0 =? b)).
        -- rewrite IH by lia. rewrite <- app_assoc. simpl.
           by replace (i + 2)%nat with (S (S i)) by lia.
        -- rewrite IH by lia. rewrite <- app_assoc. simpl.
           replace (i + 1)%nat with (S i) by lia.
           by rewrite (drop_nth_cons tokens (S i)) by lia.
      * rewrite IH by lia. rewrite <- app_assoc. simpl.
        replace (i + 1)%nat with (S i) by lia.
        by rewrite !drop_ge by lia.
    + rewrite drop_ge by lia. by rewrite app_nil_r.
Qed.

Lemma merge_bytepairs_spec tokens a b index :
  _merge_bytepairs tokens (a, b) index = replace_pairs_spec a b index tokens.
Proof.
  unfold _merge_bytepairs. rewrite merge_loop_spec by lia. by rewrite drop_0.
Qed.

(** Induction two elements at a time, as the scan of the merge primitive
    consumes them. *)
Lemma list_pair_ind {A} (P : list A → Prop) :
  P [] → (∀ t, P [t]) →
  (∀ t t' r, P r → P (t' :: r) → P (t :: t' :: r)) →
  ∀ l, P l.
Proof.
  intros Hnil Hone Hstep l.
  assert (H : P l ∧ ∀ t, P (t :: l)); [|by destruct H].
  induction l as [|t' l [IH1 IH2]]; split; auto.
Qed.

Lemma replace_pairs_unfold a b index t rest :
  replace_pairs_spec a b index (t :: rest)
  = if (t =? a) && (match rest with t' :: _ => t' =? b | [] => false end)
    then index :: replace_pairs_spec a b index (tail rest)
    else t :: replace_pairs_spec a b index rest.
Proof.
  destruct rest as [|t' rest]; cbn [replace_pairs_spec tail].
  - by rewrite andb_false_r.
  - done.
Qed.

Lemma replace_pairs_length a b index tokens :
  (length (replace_pairs_spec a b index tokens) ≤ length tokens)%nat.
Proof.
  induction tokens as [| t | t t' r IH1 IH2] using list_pair_ind;
    [done | done |].
  rewrite replace_pairs_unfold. cbn [tail].
  destruct ((t =? a) && (t' =? b)); cbn [length] in *; lia.
Qed.

(** ** UTF-8: decoding what [encode] produced *)

Lemma in_range_true lo hi b : in_range lo hi b = true ↔ lo ≤ b ≤ hi.
Proof. unfold in_range. rewrite andb_true_iff, !Z.leb_le. done. Qed.

Lemma in_range_false lo hi b : in_range lo hi b = false ↔ b < lo ∨ hi < b.
Proof. unfold in_range. rewrite andb_false_iff, !Z.leb_gt. done. Qed.

Lemma second_range_true b0 b1 :
  (if b0 =? 0xE0 then 0xA0 else if b0 =? 0xF0 then 0x90 else 0x80) ≤ b1 →
  b1 ≤ (if b0 =? 0xED then 0x9F else if b0 =? 0xF4 then 0x8F else 0xBF) →
  in_range (second_lo b0) (second_hi b0) b1 = true.
Proof. intros. by apply in_range_true. Qed.

Lemma utf8_decode_1 b0 r :
  b0 < 0x80 → utf8_decode_steps (b0 :: r) = Some b0 :: utf8_decode_steps r.
Proof.
  intros H. cbn [utf8_decode_steps]. by rewrite (proj2 (Z.ltb_lt _ _) H).
Qed.

Lemma utf8_decode_2 b0 b1 r :
  0xC2 ≤ b0 ≤ 0xDF → is_cont b1 = true →
  utf8_decode_steps (b0 :: b1 :: r)
  = Some ((b0 - 0xC0) * 64 + (b1 - 0x80)) :: utf8_decode_steps r.
Proof.
  intros H0 H1. cbn [utf8_decode_steps].
  rewrite (proj2 (Z.ltb_ge _ _)) by lia.
  rewrite (proj2 (in_range_true _ _ _)) by lia. by rewrite H1.
Qed.

Lemma utf8_decode_3 b0 b1 b2 r :
  0xE0 ≤ b0 ≤ 0xEF → in_range (second_lo b0) (second_hi b0) b1 = true →
  is_cont b2 = true →
  utf8_decode_steps (b0 :: b1 :: b2 :: r)
  = Some ((b0 - 0xE0) * 4096 + (b1 - 0x80) * 64 + (b2 - 0x80))
    :: utf8_decode_steps r.
Proof.
  intros H0 H1 H2. cbn [utf8_decode_steps].
  rewrite (proj2 (Z.ltb_ge _ _)) by lia.
  rewrite (proj2 (in_range_false 0xC2 _ _)) by lia.
  rewrite (proj2 (in_range_true 0xE0 _ _)) by lia. by rewrite H1, H2.
Qed.

Lemma utf8_decode_4 b0 b1 b2 b3 r :
  0xF0 ≤ b0 ≤ 0xF4 → in_range (second_lo b0) (second_hi b0) b1 = true →
  is_cont b2 = true → is_cont b3 = true →
  utf8_decode_steps (b0 :: b1 :: b2 :: b3 :: r)
  = Some ((b0 - 0xF0) * 262144 + (b1 - 0x80) * 4096 + (b2 - 0x80) * 64
          + (b3 - 0x80)) :: utf8_decode_steps r.
Proof.
  intros H0 H1 H2 H3. cbn [utf8_decode_steps].
  rewrite (proj2 (Z.ltb_ge _ _)) by lia.
  rewrite (proj2 (in_range_false 0xC2 _ _)) by lia.
  rewrite (proj2 (in_range_false 0xE0 _ _)) by lia.
  rewrite (proj2 (in_range_true 0xF0 _ _)) by lia. by rewrite H1, H2, H3.
Qed.

Lemma is_cont_low6 x : is_cont (0x80 + x mod 64) = true.
Proof.
  apply in_range_true. pose proof (Z.mod_pos_bound x 64 ltac:(lia)). lia.
Qed.

Lemma utf8_decode_encode_cp c rest :
  is_scalar c = true →
  utf8_decode_steps (utf8_encode_cp c ++ rest) = Some c :: utf8_decode_steps rest.
Proof.
  unfold is_scalar, utf8_encode_cp. intros Hc.
  assert (0 ≤ c < 0xD800 ∨ 0xE000 ≤ c ≤ 0x10FFFF) as Hrange by lia.
  clear Hc.
  destruct (Z.ltb_spec c 0x80); [|destruct (Z.ltb_spec c 0x800);
    [|destruct (Z.ltb_spec c 0x10000)]]; cbn [app].
  - by apply utf8_decode_1.
  - rewrite utf8_decode_2; [| Z.div_mod_to_equations; lia | apply is_cont_low6].
    do 2 f_equal. Z.div_mod_to_equations; lia.
  - rewrite utf8_decode_3; [| Z.div_mod_to_equations; lia | |
                             apply is_cont_low6].
    + do 2 f_equal. Z.div_mod_to_equations; lia.
    + apply second_range_true.
      * destruct (Z.eqb_spec (0xE0 + c / 4096) 0xE0);
          [|destruct (Z.eqb_spec (0xE0 + c / 4096) 0xF0)];
          Z.div_mod_to_equations; lia.
      * destruct (Z.eqb_spec (0xE0 + c / 4096) 0xED);
          [|destruct (Z.eqb_spec (0xE0 + c / 4096) 0xF4)];
          Z.div_mod_to_equations; lia.
  - rewrite utf8_decode_4; [| Z.div_mod_to_equations; lia | |
                             apply is_cont_low6 | apply is_cont_low6].
    + do 2 f_equal. Z.div_mod_to_equations; lia.
    + apply second_range_true.
      * destruct (Z.eqb_spec (0xF0 + c / 262144) 0xE0);
          [|destruct (Z.eqb_spec (0xF0 + c / 262144) 0xF0)];
          Z.div_mod_to_equations; lia.
      * destruct (Z.eqb_spec (0xF0 + c / 262144) 0xED);
          [|destruct (Z.eqb_spec (0xF0 + c / 262144) 0xF4)];
          Z.div_mod_to_equations; lia.
Qed.

Lemma utf8_decode_encode s :
  forallb is_scalar s = true →
  utf8_decode_steps (flat_map utf8_encode_cp s) = Some <$> s.
Proof.
  induction s as [|c s IH]; [done|]. cbn [forallb flat_map fmap list_fmap].
  intros [Hc Hs]%andb_true_iff.
  rewrite utf8_decode_encode_cp by done. by rewrite IH.
Qed.

Lemma str_encode_Ok s bs :
  str_encode s = Ok bs ↔
  forallb is_scalar s = true ∧ bs = flat_map utf8_encode_cp s.
Proof.
  unfold str_encode. destruct (forallb is_scalar s); split.
  - by intros [= <-].
  - by intros [_ ->].
  - done.
  - by intros [? _].
Qed.

Lemma bytes_decode_replace_encode s bs :
  str_encode s = Ok bs → bytes_decode_replace bs = s.
Proof.
  intros [Hs ->]%str_encode_Ok. unfold bytes_decode_replace.
  rewrite utf8_decode_encode by done. rewrite <- list_fmap_compose.
  by rewrite list_fmap_id.
Qed.

Lemma all_decoded_Some s : all_decoded (Some <$> s) = Ok s.
Proof.
  induction s as [|c s IH]; [done|]. rewrite fmap_cons.
  cbn [all_decoded]. by rewrite IH.
Qed.

Lemma bytes_decode_strict_encode s bs :
  str_encode s = Ok bs → bytes_decode_strict bs = Ok s.
Proof.
  intros [Hs ->]%str_encode_Ok. unfold bytes_decode_strict.
  rewrite utf8_decode_encode by done. apply all_decoded_Some.
Qed.

Lemma utf8_encode_cp_bytes c : is_scalar c = true → is_bytes (utf8_encode_cp c).
Proof.
  unfold is_scalar, utf8_encode_cp, is_bytes. intros Hc.
  assert (0 ≤ c ≤ 0x10FFFF) by lia.
  destruct (Z.ltb_spec c 0x80); [|destruct (Z.ltb_spec c 0x800);
    [|destruct (Z.ltb_spec c 0x10000)]];
    repeat apply Forall_cons_2; try apply Forall_nil_2;
    Z.div_mod_to_equations; lia.
Qed.

Lemma str_encode_bytes s bs : str_encode s = Ok bs → is_bytes bs.
Proof.
  intros [Hs ->]%str_encode_Ok. unfold is_bytes.
  induction s as [|c s IH]; [by apply Forall_nil_2|].
  cbn [forallb flat_map] in *. apply andb_true_iff in Hs as [Hc Hs].
  apply Forall_app_2; [by apply utf8_encode_cp_bytes | by apply IH].
Qed.

(** ** Merging and the bytes behind a token sequence *)

Lemma bytes_join_nil vocab : bytes_join vocab [] = Ok [].
Proof. done. Qed.

Lemma bytes_join_cons vocab idx ids :
  bytes_join vocab (idx :: ids)
  = match vocab !! idx with
    | Some bs => rest ← bytes_join vocab ids; Ok (bs ++ rest)
    | None => Raise KeyError
    end.
Proof.
  unfold bytes_join. cbn [vocab_lookups].
  destruct (vocab !! idx); [|done].
  by destruct (vocab_lookups vocab ids).
Qed.

Lemma replace_pairs_bytes_join vocab a b index tokens :
  rule_defined vocab ((a, b), index) →
  bytes_join vocab (replace_pairs_spec a b index tokens)
  = bytes_join vocab tokens.
Proof.
  intros (x & y & Ha & Hb & Hidx). cbn [fst snd] in *.
  induction tokens as [| t | t t' r IH1 IH2] using list_pair_ind;
    [done | done |].
  rewrite replace_pairs_unfold. cbn [tail].
  destruct (Z.eqb_spec t a) as [->|]; [destruct (Z.eqb_spec t' b) as [->|]|];
    cbn [andb].
  - rewrite !bytes_join_cons, Ha, Hb, Hidx, IH1.
    destruct (bytes_join vocab r); [|done]. cbn. by rewrite app_assoc.
  - by rewrite !(bytes_join_cons _ a), IH2.
  - by rewrite !(bytes_join_cons _ t), IH2.
Qed.

Lemma apply_merges_bytes_join vocab rules tokens :
  Forall (rule_defined vocab) rules →
  bytes_join vocab (apply_merges rules tokens) = bytes_join vocab tokens.
Proof.
  intros Hrules. revert tokens.
  induction Hrules as [|[[a b] index] rules Hrule _ IH]; intros tokens;
    [done|].
  cbn [apply_merges fold_left fst snd].
  change (fold_left _ rules ?t) with (apply_merges rules t).
  rewrite IH, merge_bytepairs_spec. by apply replace_pairs_bytes_join.
Qed.

Lemma bytes_join_bytes vocab bs :
  (∀ b, 0 ≤ b < 256 → vocab !! b = Some [b]) →
  is_bytes bs → bytes_join vocab bs = Ok bs.
Proof.
  intros Hvocab. induction 1 as [|b bs Hb _ IH]; [done|].
  by rewrite bytes_join_cons, Hvocab, IH.
Qed.

(** ** The vocabulary built from the merge rules *)

Lemma byte_vocab_keys :
  ((fun idx : Z => (idx, [idx])) <$> seqZ 0 256).*1 = seqZ 0 256.
Proof. rewrite <- list_fmap_compose. apply list_fmap_id. Qed.

Lemma byte_vocab_lookup b : 0 ≤ b < 256 → byte_vocab !! b = Some [b].
Proof.
  intros Hb. unfold byte_vocab. apply elem_of_list_to_map_1.
  - rewrite byte_vocab_keys. apply NoDup_seqZ.
  - apply list_elem_of_fmap. exists b. split; [done|]. apply elem_of_seqZ. lia.
Qed.

Lemma byte_vocab_lookup_None b : ¬ (0 ≤ b < 256) → byte_vocab !! b = None.
Proof.
  intros Hb. unfold byte_vocab. apply not_elem_of_list_to_map_1.
  rewrite byte_vocab_keys, elem_of_seqZ. lia.
Qed.

Lemma vocab_add_merges_defined items vocab vocab' :
  vocab_add_merges items vocab = Ok vocab' →
  NoDup items.*2 → (∀ idx, idx ∈ items.*2 → vocab !! idx = None) →
  vocab ⊆ vocab' ∧ Forall (rule_defined vocab') items.
Proof.
  revert vocab. induction items as [|[[p0 p1] idx] items IH]; intros vocab.
  - intros [= ->] _ _. split; [done | by apply Forall_nil_2].
  - cbn [vocab_add_merges]. rewrite fmap_cons. cbn [snd].
    destruct (vocab !! p0) as [x|] eqn:Hp0; [|done].
    destruct (vocab !! p1) as [y|] eqn:Hp1; [|done].
    intros Hadd [Hidx Hnodup]%NoDup_cons Hfresh.
    assert (vocab !! idx = None) as Hnone by (apply Hfresh; left).
    destruct (IH _ Hadd Hnodup) as [Hsub Hrules].
    { intros idx' Hin. rewrite lookup_insert_ne; [|by intros ->].
      apply Hfresh. by right. }
    assert (vocab ⊆ vocab') as Hsub'.
    { etrans; [|exact Hsub]. by apply insert_subseteq. }
    split; [done|]. apply Forall_cons_2; [|done].
    exists x, y. cbn [fst snd].
    split; [by eapply lookup_weaken|]. split; [by eapply lookup_weaken|].
    eapply lookup_weaken; [|exact Hsub]. apply lookup_insert_eq.
Qed.

Lemma vocab_add_merges_absent items vocab vocab' k :
  vocab_add_merges items vocab = Ok vocab' →
  vocab !! k = None → k ∉ items.*2 → vocab' !! k = None.
Proof.
  revert vocab. induction items as [|[[p0 p1] idx] items IH]; intros vocab.
  - by intros [= ->].
  - cbn [vocab_add_merges]. rewrite fmap_cons. cbn [snd].
    destruct (vocab !! p0); [|done]. destruct (vocab !! p1); [|done].
    intros Hadd Hk [Hne Hrest]%not_elem_of_cons.
    apply (IH _ Hadd); [|done]. by rewrite lookup_insert_ne.
Qed.

Lemma vocab_add_special_subseteq items vocab vocab' :
  vocab_add_special items vocab = Ok vocab' →
  NoDup items.*2 → (∀ idx, idx ∈ items.*2 → vocab !! idx = None) →
  vocab ⊆ vocab'.
Proof.
  revert vocab. induction items as [|[s idx] items IH]; intros vocab.
  - by intros [= ->].
  - cbn [vocab_add_special]. rewrite fmap_cons. cbn [snd].
    destruct (str_encode s) as [bs|]; [|done].
    intros Hadd [Hidx Hnodup]%NoDup_cons Hfresh.
    etrans; [|apply (IH _ Hadd Hnodup)].
    + apply insert_subseteq. apply Hfresh. left.
    + intros idx' Hin. rewrite lookup_insert_ne; [|by intros ->].
      apply Hfresh. by right.
Qed.

(** A vocabulary built from rules and special tokens whose identifiers
    are all different and none a byte value keeps the single bytes and
    defines every rule. *)
Lemma built_vocab_defined st :
  _build_vocab st = Ok (vocab st) →
  NoDup ((merges st).*2 ++ (special_tokens st).*2) →
  Forall (fun idx => 256 ≤ idx) ((merges st).*2 ++ (special_tokens st).*2) →
  byte_vocab ⊆ vocab st ∧ Forall (rule_defined (vocab st)) (merges st).
Proof.
  unfold _build_vocab. intros Hbuild Hnodup Hids.
  destruct (vocab_add_merges (merges st) byte_vocab) as [v|] eqn:Hadd;
    [|done]. cbn in Hbuild.
  apply NoDup_app in Hnodup as (Hm & Hdisj & Hs).
  apply Forall_app in Hids as [Hmids Hsids].
  rewrite Forall_forall in Hmids. rewrite Forall_forall in Hsids.
  destruct (vocab_add_merges_defined _ _ _ Hadd Hm) as [Hsub Hrules].
  { intros idx Hidx%Hmids. apply byte_vocab_lookup_None. lia. }
  assert (v ⊆ vocab st) as Hsub'.
  { apply (vocab_add_special_subseteq _ _ _ Hbuild Hs). intros idx Hidx.
    apply (vocab_add_merges_absent _ _ _ _ Hadd).
    - apply Hsids in Hidx. apply byte_vocab_lookup_None. lia.
    - intros Hin. by apply (Hdisj idx). }
  split; [by etrans|].
  eapply Forall_impl; [exact Hrules|].
  intros [[a b] idx] (x & y & Ha & Hb & Hidx). exists x, y.
  cbn [fst snd] in *. repeat split; by eapply lookup_weaken.
Qed.

(** ** Insertion-ordered dictionaries: keys *)

Section odict_facts.
Context {K V : Type} `{EqDecision K}.
Implicit Types (d : list (K * V)) (k : K) (v : V).

Lemma od_set_keys k v d k' :
  k' ∈ od_keys (od_set k v d) ↔ k' = k ∨ k' ∈ od_keys d.
Proof.
  unfold od_keys. induction d as [|[k0 v0] d IH]; cbn [od_set].
  - rewrite fmap_cons. cbn. set_solver.
  - destruct (decide (k = k0)) as [->|]; rewrite !fmap_cons; cbn [fst].
    + set_solver.
    + rewrite !elem_of_cons, IH. tauto.
Qed.

Lemma od_set_fresh k v d : k ∉ od_keys d → od_set k v d = d ++ [(k, v)].
Proof.
  unfold od_keys. induction d as [|[k0 v0] d IH]; [done|].
  rewrite fmap_cons. cbn [fst od_set]. intros Hk%not_elem_of_cons.
  destruct Hk as [Hne Hk]. destruct (decide (k = k0)); [done|].
  by rewrite IH.
Qed.

Lemma od_get_None k d : od_get k d = None ↔ k ∉ od_keys d.
Proof.
  unfold od_keys. induction d as [|[k0 v0] d IH]; cbn [od_get].
  - split; [intros _; apply not_elem_of_nil | done].
  - rewrite fmap_cons. cbn [fst]. rewrite not_elem_of_cons.
    destruct (decide (k = k0)); [|rewrite IH]; naive_solver.
Qed.

Lemma od_get_Some_elem k v d : od_get k d = Some v → (k, v) ∈ d.
Proof.
  induction d as [|[k0 v0] d IH]; cbn [od_get]; [done|].
  destruct (decide (k = k0)) as [->|].
  - intros [= ->]. left.
  - intros. right. auto.
Qed.

Lemma py_dict_keys (items : list (K * V)) k :
  k ∈ od_keys (py_dict items) ↔ k ∈ items.*1.
Proof.
  unfold py_dict.
  assert (∀ d, k ∈ od_keys (fold_left (fun d kv => od_set kv.1 kv.2 d) items d)
               ↔ k ∈ items.*1 ∨ k ∈ od_keys d) as Hgen.
  { induction items as [|[k0 v0] items IH]; intros d; cbn [fold_left].
    - set_solver.
    - rewrite IH, od_set_keys, fmap_cons. cbn [fst snd]. set_solver. }
  rewrite Hgen. unfold od_keys. set_solver.
Qed.
End odict_facts.

(** ** Counting pairs and selecting the top pair *)

Lemma count_pairs_keys pairs counts k :
  k ∈ od_keys (fold_left count_pair pairs counts)
  ↔ k ∈ pairs ∨ k ∈ od_keys counts.
Proof.
  revert counts. induction pairs as [|p pairs IH]; intros counts;
    cbn [fold_left].
  - set_solver.
  - rewrite IH. unfold count_pair. rewrite od_set_keys. set_solver.
Qed.

Lemma insert_sorted_elem {A} (key : A → Z) x l y :
  y ∈ insert_sorted key x l ↔ y = x ∨ y ∈ l.
Proof.
  induction l as [|z l IH]; cbn [insert_sorted].
  - set_solver.
  - destruct (key x <=? key z); [set_solver|].
    rewrite !elem_of_cons, IH. tauto.
Qed.

Lemma py_sorted_elem {A} (key : A → Z) l y : y ∈ py_sorted key l ↔ y ∈ l.
Proof.
  unfold py_sorted. induction l as [|x l IH]; cbn [foldr]; [done|].
  rewrite insert_sorted_elem, IH. set_solver.
Qed.

Lemma count_combinations_keys tokens k :
  k ∈ od_keys (_count_combinations tokens) ↔ k ∈ adjacent_pairs tokens.
Proof.
  unfold _count_combinations. rewrite py_dict_keys.
  rewrite !list_elem_of_fmap.
  setoid_rewrite py_sorted_elem.
  rewrite <- list_elem_of_fmap.
  change (k ∈ od_keys (fold_left count_pair (adjacent_pairs tokens) [])
          ↔ k ∈ adjacent_pairs tokens).
  rewrite count_pairs_keys. unfold od_keys. set_solver.
Qed.

Lemma py_max_elem {A} (key : A → Z) l x : py_max key l = Ok x → x ∈ l.
Proof.
  destruct l as [|x0 l]; [done|]. cbn [py_max]. intros [= <-].
  assert (∀ best, fold_left (fun best y => if key best <? key y then y else best)
                    l best ∈ best :: l) as Hgen.
  { induction l as [|y l IH]; intros best; cbn [fold_left]; [left|].
    specialize (IH (if key best <? key y then y else best)).
    destruct (key best <? key y); set_solver. }
  apply Hgen.
Qed.

Lemma top_pair_of_Ok tokens p :
  top_pair_of (_count_combinations tokens) = Ok p → p ∈ adjacent_pairs tokens.
Proof.
  unfold top_pair_of. intros H%py_max_elem. by apply count_combinations_keys.
Qed.

Lemma top_pair_of_Raise tokens e :
  top_pair_of (_count_combinations tokens) = Raise e →
  e = ValueError ∧ adjacent_pairs tokens = [].
Proof.
  unfold top_pair_of.
  destruct (od_keys (_count_combinations tokens)) as [|k ks] eqn:Hkeys;
    [|done].
  cbn [py_max]. intros [= <-]. split; [done|].
  destruct (adjacent_pairs tokens) as [|p ps] eqn:Hpairs; [done|].
  assert (p ∈ od_keys (_count_combinations tokens)) as Hin.
  { apply count_combinations_keys. rewrite Hpairs. left. }
  rewrite Hkeys in Hin. by apply elem_of_nil in Hin.
Qed.

Lemma adjacent_pairs_cons x y l :
  adjacent_pairs (x :: y :: l) = (x, y) :: adjacent_pairs (y :: l).
Proof. done. Qed.

Lemma adjacent_pairs_short tokens :
  adjacent_pairs tokens = [] ↔ (length tokens < 2)%nat.
Proof.
  destruct tokens as [|x [|y l]]; cbn; split; try done; try lia.
Qed.

Lemma adjacent_pairs_elem a b tokens :
  (a, b) ∈ adjacent_pairs tokens → a ∈ tokens ∧ b ∈ tokens.
Proof.
  induction tokens as [|x [|y l] IH]; [by intros ?%elem_of_nil..|].
  rewrite adjacent_pairs_cons, elem_of_cons. intros [[= -> ->]|Hin].
  - set_solver.
  - apply IH in Hin. set_solver.
Qed.

(** ** What a merge pass does to the adjacent pairs *)

Lemma replace_pairs_head a b index t r :
  ∃ h rest, replace_pairs_spec a b index (t :: r) = h :: rest
            ∧ (h = index ∨ h = t).
Proof.
  rewrite replace_pairs_unfold.
  destruct ((t =? a) && _); eauto.
Qed.

Lemma replace_pairs_elem a b index tokens t :
  t ∈ replace_pairs_spec a b index tokens → t = index ∨ t ∈ tokens.
Proof.
  induction tokens as [| t0 | t0 t' r IH1 IH2] using list_pair_ind;
    [by intros ?%elem_of_nil | cbn; set_solver |].
  rewrite replace_pairs_unfold. cbn [tail].
  destruct ((t0 =? a) && (t' =? b)); rewrite elem_of_cons; set_solver.
Qed.

Lemma replace_pairs_adjacent a b index tokens x y :
  (x, y) ∈ adjacent_pairs (replace_pairs_spec a b index tokens) →
  x ≠ index → y ≠ index → (x, y) ∈ adjacent_pairs tokens.
Proof.
  intros Hin Hx Hy. revert Hin.
  induction tokens as [| t | t t' r IH1 IH2] using list_pair_ind;
    [done | done |].
  rewrite replace_pairs_unfold. cbn [tail].
  rewrite (adjacent_pairs_cons t t' r).
  destruct ((t =? a) && (t' =? b)).
  - destruct r as [|t'' r]; [by intros ?%elem_of_nil|].
    destruct (replace_pairs_head a b index t'' r) as (h & rest & Heq & _).
    rewrite Heq in *. rewrite adjacent_pairs_cons, elem_of_cons.
    intros [[= -> ->]|Hin]; [done|].
    right. apply IH1 in Hin. revert Hin.
    rewrite adjacent_pairs_cons. set_solver.
  - destruct (replace_pairs_head a b index t' r) as (h & rest & Heq & Hh).
    rewrite Heq in *. rewrite adjacent_pairs_cons, elem_of_cons.
    intros [[= -> ->]|Hin].
    + destruct Hh as [->| ->]; [done | left].
    + right. by apply IH2.
Qed.

Lemma replace_pairs_consumed a b index tokens :
  index ≠ a → index ≠ b →
  (a, b) ∉ adjacent_pairs (replace_pairs_spec a b index tokens).
Proof.
  intros Ha Hb.
  induction tokens as [| t | t t' r IH1 IH2] using list_pair_ind;
    [by intros ?%elem_of_nil | by intros ?%elem_of_nil |].
  rewrite replace_pairs_unfold. cbn [tail].
  destruct (Z.eqb_spec t a) as [->|Hta];
    [destruct (Z.eqb_spec t' b) as [->|Htb]|]; cbn [andb].
  - destruct r as [|t'' r]; [by intros ?%elem_of_nil|].
    destruct (replace_pairs_head a b index t'' r) as (h & rest & Heq & _).
    rewrite Heq in *. rewrite adjacent_pairs_cons, elem_of_cons.
    intros [[= -> ->]|Hin]; done.
  - destruct (replace_pairs_head a b index t' r) as (h & rest & Heq & Hh).
    rewrite Heq in *. rewrite adjacent_pairs_cons, elem_of_cons.
    intros [[= <-]|Hin]; [|done]. destruct Hh; congruence.
  - destruct (replace_pairs_head a b index t' r) as (h & rest & Heq & Hh).
    rewrite Heq in *. rewrite adjacent_pairs_cons, elem_of_cons.
    intros [[= -> ->]|Hin]; done.
Qed.

Lemma replace_pairs_shorter a b index tokens :
  (a, b) ∈ adjacent_pairs tokens →
  (length (replace_pairs_spec a b index tokens) < length tokens)%nat.
Proof.
  induction tokens as [| t | t t' r IH1 IH2] using list_pair_ind;
    [by intros ?%elem_of_nil | by intros ?%elem_of_nil |].
  rewrite replace_pairs_unfold, adjacent_pairs_cons, elem_of_cons.
  cbn [tail].
  pose proof (replace_pairs_length a b index r).
  destruct (Z.eqb_spec t a) as [->|Hta];
    [destruct (Z.eqb_spec t' b) as [->|Htb]|]; cbn [andb length] in *.
  - lia.
  - intros [[= ->]|Hin]; [done|]. apply IH2 in Hin. cbn [length] in Hin. lia.
  - intros [[= -> ->]|Hin]; [done|]. apply IH2 in Hin. cbn [length] in Hin. lia.
Qed.

(** Undoing a merge pass: writing [a, b] for every [index]. *)
Lemma replace_pairs_expand a b index tokens :
  index ∉ tokens →
  flat_map (fun t => if t =? index then [a; b] else [t])
    (replace_pairs_spec a b index tokens) = tokens.
Proof.
  induction tokens as [| t | t t' r IH1 IH2] using list_pair_ind; [done| |].
  - intros [Ht _]%not_elem_of_cons. cbn.
    by destruct (Z.eqb_spec t index).
  - intros [Ht Hrest]%not_elem_of_cons.
    pose proof Hrest as [Ht' Hr]%not_elem_of_cons.
    rewrite replace_pairs_unfold. cbn [tail].
    destruct (Z.eqb_spec t a) as [->|];
      [destruct (Z.eqb_spec t' b) as [->|]|]; cbn [andb flat_map].
    + rewrite Z.eqb_refl, IH1 by done. done.
    + destruct (Z.eqb_spec a index); [done|]. by rewrite IH2.
    + destruct (Z.eqb_spec t index); [done|]. by rewrite IH2.
Qed.

(** C4. The single-merge primitive scans left to right: where the next
    two tokens are exactly [a, b] it emits the replacement and resumes two
    positions later, otherwise it copies one token and resumes one position
    later (first and second conjunct, where the first compares the loop of
    the source with the specification's wording). So in [a, b, b] only the
    first pair is consumed, and the result is never longer than the input.
    With a replacement identifier other than [a] and [b] no adjacent
    [a, b] is left, and with one that is new to the sequence, writing
    [a, b] back for it restores the input. *)
Theorem merge_bytepairs_correct (tokens : list Z) (a b index : Z) :
  _merge_bytepairs tokens (a, b) index = replace_pairs_spec a b index tokens
  ∧ (∀ t rest,
       _merge_bytepairs (t :: rest) (a, b) index
       = if (t =? a) && (match rest with t' :: _ => t' =? b | [] => false end)
         then index :: _merge_bytepairs (tail rest) (a, b) index
         else t :: _merge_bytepairs rest (a, b) index)
  ∧ _merge_bytepairs [a; b; b] (a, b) index = [index; b]
  ∧ (length (_merge_bytepairs tokens (a, b) index) ≤ length tokens)%nat
  ∧ (index ≠ a → index ≠ b →
       (a, b) ∉ adjacent_pairs (_merge_bytepairs tokens (a, b) index))
  ∧ (index ∉ tokens →
       flat_map (fun t => if t =? index then [a; b] else [t])
         (_merge_bytepairs tokens (a, b) index) = tokens).
Proof.
  split; [apply merge_bytepairs_spec|].
  split; [intros t rest; rewrite !merge_bytepairs_spec;
          apply replace_pairs_unfold|].
  split.
  { rewrite merge_bytepairs_spec. cbn [replace_pairs_spec].
    rewrite !Z.eqb_refl. cbn [andb]. done. }
  rewrite merge_bytepairs_spec.
  split; [apply replace_pairs_length|].
  split; [apply replace_pairs_consumed | apply replace_pairs_expand].
Qed.

(** In ["abab" + "b"] with the pair ["ab"] and the new identifier 256. *)
Lemma merge_bytepairs_correct_witness :
  _merge_bytepairs [97; 98; 97; 98; 98] (97, 98) 256 = [256; 256; 98]
  ∧ 256 ≠ 97 ∧ 256 ≠ 98
  ∧ ((97, 98) ∉ adjacent_pairs
                  (_merge_bytepairs [97; 98; 97; 98; 98] (97, 98) 256))
  ∧ (256 ∉ [97; 98; 97; 98; 98])
  ∧ flat_map (fun t => if t =? 256 then [97; 98] else [t])
      (_merge_bytepairs [97; 98; 97; 98; 98] (97, 98) 256)
    = [97; 98; 97; 98; 98].
Proof.
  pose proof (merge_bytepairs_correct [97; 98; 97; 98; 98] 97 98 256)
    as (_ & _ & _ & _ & Hconsumed & Hexpand).
  assert (256 ∉ [97; 98; 97; 98; 98]) as Hnew
    by (apply (bool_decide_unpack _); vm_compute; exact I).
  split; [vm_compute; reflexivity|]. split; [lia|]. split; [lia|].
  split; [apply Hconsumed; lia|]. split; [exact Hnew | exact (Hexpand Hnew)].
Defined.

(** ** The training loop *)

Lemma train_inv_start bs : is_bytes bs → train_inv 0 bs [].
Proof.
  intros Hbs. split; try done; by apply Forall_nil_2.
Qed.

Lemma train_inv_step i tokens merges a b :
  train_inv i tokens merges → (a, b) ∈ adjacent_pairs tokens →
  ((a, b) ∉ od_keys merges)
  ∧ train_inv (i + 1) (replace_pairs_spec a b (256 + i) tokens)
      (merges ++ [((a, b), 256 + i)]).
Proof.
  intros [Hi Hids Htokens Hrules Habsent] Hab.
  rewrite Forall_forall in Htokens. rewrite Forall_forall in Hrules.
  rewrite Forall_forall in Habsent.
  destruct (adjacent_pairs_elem _ _ _ Hab) as [Ha Hb].
  apply Htokens in Ha, Hb.
  assert (∀ r, r ∈ merges → r.2 < 256 + i) as Hlt.
  { intros r Hr. assert (r.2 ∈ merges.*2) as Hin
      by (apply list_elem_of_fmap; eauto).
    rewrite Hids, elem_of_seqZ in Hin. lia. }
  split.
  { unfold od_keys. intros ([p idx] & Heq & Hin)%list_elem_of_fmap.
    cbn in Heq. subst p. by apply (Habsent _ Hin). }
  split.
  - lia.
  - rewrite fmap_app, Hids, seqZ_app by lia. done.
  - apply Forall_forall. intros t [->|Ht]%replace_pairs_elem; [lia|].
    apply Htokens in Ht. lia.
  - apply Forall_app_2; [by apply Forall_forall|].
    apply Forall_cons_2; [cbn; lia | apply Forall_nil_2].
  - apply Forall_app_2.
    + apply Forall_forall. intros [[x y] idx] Hr Hadj.
      pose proof (Hrules _ Hr) as Hxy. pose proof (Hlt _ Hr) as Hidx.
      cbn [fst snd] in *.
      apply (Habsent _ Hr). cbn [fst].
      apply (replace_pairs_adjacent a b (256 + i)); [done | lia | lia].
    + apply Forall_cons_2; [|apply Forall_nil_2]. cbn [fst].
      apply replace_pairs_consumed; lia.
Qed.

Lemma apply_merges_app rules1 rules2 tokens :
  apply_merges (rules1 ++ rules2) tokens
  = apply_merges rules2 (apply_merges rules1 tokens).
Proof. unfold apply_merges. apply fold_left_app. Qed.

Lemma train_loop_replays n i tokens merges tokens' merges' :
  train_inv i tokens merges →
  train_loop n i tokens merges = (Ok tokens', merges') →
  train_inv (i + Z.of_nat n) tokens' merges'
  ∧ ∃ learned, merges' = merges ++ learned
               ∧ apply_merges learned tokens = tokens'.
Proof.
  revert i tokens merges.
  induction n as [|n IH]; intros i tokens merges Hinv; cbn [train_loop].
  - intros [= <- <-]. rewrite Z.add_0_r. split; [done|].
    exists []. by rewrite app_nil_r.
  - destruct (top_pair_of (_count_combinations tokens)) as [[a b]|e] eqn:Htop;
      [|done].
    apply top_pair_of_Ok in Htop.
    destruct (train_inv_step _ _ _ _ _ Hinv Htop) as [Hfresh Hinv'].
    rewrite merge_bytepairs_spec, od_set_fresh by done.
    intros Hloop. apply IH in Hloop as [Hfinal (learned & -> & Happly)];
      [|done].
    split; [by replace (i + Z.of_nat (S n)) with (i + 1 + Z.of_nat n) by lia|].
    exists (((a, b), 256 + i) :: learned). split; [by rewrite <- app_assoc|].
    cbn [apply_merges fold_left fst snd]. by rewrite merge_bytepairs_spec.
Qed.

Lemma train_loop_raises n i tokens merges e merges' :
  train_loop n i tokens merges = (Raise e, merges') → e = ValueError.
Proof.
  revert i tokens merges. induction n as [|n IH]; intros i tokens merges;
    cbn [train_loop]; [done|].
  destruct (top_pair_of (_count_combinations tokens)) as [p|e'] eqn:Htop.
  - apply IH.
  - intros [= <- <-]. by apply top_pair_of_Raise in Htop as [-> _].
Qed.

(** Each merge shortens the working sequence, so asking for at least as
    many merges as there are bytes exhausts the pairs. *)
Lemma train_loop_insufficient n i tokens merges :
  (0 < n)%nat → (length tokens ≤ n)%nat →
  (train_loop n i tokens merges).1 = Raise ValueError.
Proof.
  revert i tokens merges. induction n as [|n IH]; intros i tokens merges Hn Hlen;
    [lia|]. cbn [train_loop].
  destruct (top_pair_of (_count_combinations tokens)) as [[a b]|e] eqn:Htop.
  - apply top_pair_of_Ok in Htop.
    pose proof (replace_pairs_shorter a b (256 + i) tokens Htop) as Hshort.
    assert (2 ≤ length tokens)%nat.
    { destruct (decide (length tokens < 2)%nat) as [Hlt|]; [|lia].
      apply adjacent_pairs_short in Hlt. rewrite Hlt in Htop.
      by apply elem_of_nil in Htop. }
    apply IH; [lia|]. rewrite merge_bytepairs_spec. lia.
  - by apply top_pair_of_Raise in Htop as [-> _].
Qed.

(** ** [train], [encode] and [decode] together *)

Lemma train_Ok corpus vocab_size self st :
  train corpus vocab_size self = (Ok (), st) →
  ∃ bs tokens,
    str_encode corpus = Ok bs
    ∧ train_loop (Z.to_nat (vocab_size - 256)) 0 bs [] = (Ok tokens, merges st)
    ∧ special_tokens st = special_tokens self
    ∧ _build_vocab (Tokenizer (merges st) (special_tokens self) (vocab self))
      = Ok (vocab st).
Proof.
  unfold train. destruct (str_encode corpus) as [bs|e] eqn:Hbs; [|done].
  destruct (train_loop _ 0 bs []) as [[tokens|e] learned] eqn:Hloop; [|done].
  destruct (_build_vocab _) as [v|e] eqn:Hvocab; [|done].
  intros [= <-]. cbn [merges special_tokens vocab]. eauto 10.
Qed.

Lemma encode_Ok self input bs :
  str_encode input = Ok bs →
  encode self input = Ok (apply_merges (merges self) bs).
Proof. unfold encode. by intros ->. Qed.

(** C3. [encode] is the left-to-right fold of the single-merge primitive
    over the recorded rules in insertion order, so each rule is applied to
    the whole sequence before the next one, and nothing but the rules and
    the bytes of the input enters the result. When [train] returns
    normally, the rules it recorded replay on the corpus to exactly the
    working sequence the training loop ended with. *)
Theorem encode_replays_training (corpus : list Z) (vocab_size : Z)
    (self st : tokenizer) :
  train corpus vocab_size self = (Ok (), st) →
  (∀ self' input,
     encode self' input
     = match str_encode input with
       | Ok bs =>
           Ok (fold_left
                 (fun tokens rule =>
                    _merge_bytepairs tokens (rule.1.1, rule.1.2) rule.2)
                 (merges self') bs)
       | Raise e => Raise e
       end)
  ∧ ∃ bs tokens,
      str_encode corpus = Ok bs
      ∧ train_loop (Z.to_nat (vocab_size - 256)) 0 bs [] = (Ok tokens, merges st)
      ∧ encode st corpus = Ok tokens.
Proof.
  intros Htrain. split.
  { intros self' input. unfold encode. by destruct (str_encode input). }
  destruct (train_Ok _ _ _ _ Htrain) as (bs & tokens & Hbs & Hloop & _).
  exists bs, tokens. split; [done|]. split; [done|].
  rewrite (encode_Ok _ _ _ Hbs).
  apply train_loop_replays in Hloop as [_ (learned & Hlearned & Happly)];
    [|by eapply train_inv_start, str_encode_bytes].
  rewrite Hlearned. by rewrite app_nil_l, Happly.
Qed.

Lemma encode_replays_training_witness :
  train scenario_corpus 259 init = (Ok (), trained_scenario)
  ∧ ∃ bs tokens,
      str_encode scenario_corpus = Ok bs
      ∧ train_loop (Z.to_nat (259 - 256)) 0 bs []
        = (Ok tokens, merges trained_scenario)
      ∧ encode trained_scenario scenario_corpus = Ok tokens.
Proof.
  split; [vm_compute; reflexivity|].
  apply (encode_replays_training scenario_corpus 259 init trained_scenario).
  vm_compute; reflexivity.
Defined.

(** The vocabulary of a tokenizer trained without special tokens defines
    every raw byte and every learned rule. *)
Lemma trained_vocab corpus vocab_size self st :
  special_tokens self = [] →
  train corpus vocab_size self = (Ok (), st) →
  byte_vocab ⊆ vocab st ∧ Forall (rule_defined (vocab st)) (merges st).
Proof.
  intros Hspecial Htrain.
  destruct (train_Ok _ _ _ _ Htrain) as (bs & tokens & Hbs & Hloop & _ & Hv).
  apply train_loop_replays in Hloop as [Hinv _];
    [|by eapply train_inv_start, str_encode_bytes].
  unfold _build_vocab in Hv. cbn [merges special_tokens] in Hv.
  rewrite Hspecial in Hv.
  destruct (vocab_add_merges (merges st) byte_vocab) as [v|] eqn:Hadd;
    [|done]. cbn in Hv. injection Hv as ->.
  apply (vocab_add_merges_defined _ _ _ Hadd).
  - rewrite (inv_ids _ _ _ Hinv). apply NoDup_seqZ.
  - intros idx. rewrite (inv_ids _ _ _ Hinv), elem_of_seqZ. intros Hidx.
    apply byte_vocab_lookup_None. lia.
Qed.

Lemma roundtrip_of_defined_vocab st T bs :
  byte_vocab ⊆ vocab st → Forall (rule_defined (vocab st)) (merges st) →
  str_encode T = Ok bs →
  ∃ tokens, encode st T = Ok tokens ∧ decode st tokens = Ok T.
Proof.
  intros Hbytes Hrules HT.
  exists (apply_merges (merges st) bs). split; [by apply encode_Ok|].
  unfold decode. rewrite apply_merges_bytes_join by done.
  rewrite bytes_join_bytes.
  - cbn. by rewrite (bytes_decode_replace_encode _ _ HT).
  - intros b Hb. eapply lookup_weaken; [|exact Hbytes].
    by apply byte_vocab_lookup.
  - by eapply str_encode_bytes.
Qed.

(** A tokenizer that [train] returns, when called on a tokenizer without
    special tokens, has the vocabulary [_build_vocab] gives for it and
    identifiers from 256 on that are all different. *)
Lemma trained_state_rebuilt corpus vocab_size self st :
  special_tokens self = [] →
  train corpus vocab_size self = (Ok (), st) →
  _build_vocab st = Ok (vocab st)
  ∧ NoDup ((merges st).*2 ++ (special_tokens st).*2)
  ∧ Forall (fun idx => 256 ≤ idx) ((merges st).*2 ++ (special_tokens st).*2).
Proof.
  intros Hspecial Htrain.
  destruct (train_Ok _ _ _ _ Htrain) as (bs & tokens & Hbs & Hloop & Hsp & Hv).
  apply train_loop_replays in Hloop as [Hinv _];
    [|by eapply train_inv_start, str_encode_bytes].
  rewrite Hspecial in Hsp. rewrite Hsp, app_nil_r, (inv_ids _ _ _ Hinv).
  split; [|split].
  - unfold _build_vocab in *. cbn [merges special_tokens] in Hv.
    by rewrite Hsp, <- Hspecial.
  - apply NoDup_seqZ.
  - apply Forall_forall. intros idx. rewrite elem_of_seqZ. lia.
Qed.

(** C1, as the code has it. The round trip holds for every tokenizer
    state whose vocabulary is the one [_build_vocab] gives for its merges
    and special tokens and in which the identifiers of the merges and of
    the special tokens are all different and none is a byte value (as
    after [train] on a tokenizer without special tokens, with zero or more
    merges): every text that has a UTF-8 encoding is encoded to tokens
    that decode back to the text. *)
Theorem decode_encode_roundtrip (st : tokenizer) (T bs : list Z) :
  _build_vocab st = Ok (vocab st) →
  NoDup ((merges st).*2 ++ (special_tokens st).*2) →
  Forall (fun idx => 256 ≤ idx) ((merges st).*2 ++ (special_tokens st).*2) →
  str_encode T = Ok bs →
  ∃ tokens, encode st T = Ok tokens ∧ decode st tokens = Ok T.
Proof.
  intros Hbuild Hnodup Hids HT.
  destruct (built_vocab_defined st Hbuild Hnodup Hids) as [Hbytes Hrules].
  by apply (roundtrip_of_defined_vocab st T bs).
Qed.

(** "aé€" followed by U+10348, on the scenario tokenizer. *)
Lemma decode_encode_roundtrip_witness :
  _build_vocab trained_scenario = Ok (vocab trained_scenario)
  ∧ NoDup ((merges trained_scenario).*2 ++ (special_tokens trained_scenario).*2)
  ∧ Forall (fun idx => 256 ≤ idx)
      ((merges trained_scenario).*2 ++ (special_tokens trained_scenario).*2)
  ∧ str_encode [97; 97; 233; 0x20AC; 0x10348]
    = Ok [97; 97; 195; 169; 226; 130; 172; 240; 144; 141; 136]
  ∧ ∃ tokens,
      encode trained_scenario [97; 97; 233; 0x20AC; 0x10348] = Ok tokens
      ∧ decode trained_scenario tokens = Ok [97; 97; 233; 0x20AC; 0x10348].
Proof.
  assert (_build_vocab trained_scenario = Ok (vocab trained_scenario)) as H1
    by (vm_compute; reflexivity).
  assert (NoDup ((merges trained_scenario).*2
                 ++ (special_tokens trained_scenario).*2)) as H2
    by (apply (bool_decide_unpack _); vm_compute; exact I).
  assert (Forall (fun idx => 256 ≤ idx)
            ((merges trained_scenario).*2
             ++ (special_tokens trained_scenario).*2)) as H3
    by (apply (bool_decide_unpack _); vm_compute; exact I).
  assert (str_encode [97; 97; 233; 0x20AC; 0x10348]
          = Ok [97; 97; 195; 169; 226; 130; 172; 240; 144; 141; 136]) as H4
    by (vm_compute; reflexivity).
  repeat (split; [assumption|]).
  exact (decode_encode_roundtrip trained_scenario _ _ H1 H2 H3 H4).
Defined.

(** C1 as stated fails where an identifier is used twice. Loading the
    files of the ["xy"] tokenizer into the ["ab"] tokenizer gives two
    rules the identifier 256; the vocabulary is rebuilt, ["ab"] is encoded
    to 256 and 256 is decoded to ["xy"]. *)
Lemma roundtrip_fails_on_reused_id :
  merges loaded_twice = [((97, 98), 256); ((120, 121), 256)]
  ∧ special_tokens loaded_twice = []
  ∧ _build_vocab loaded_twice = Ok (vocab loaded_twice)
  ∧ encode loaded_twice [97; 98] = Ok [256]
  ∧ decode loaded_twice [256] = Ok [120; 121]
  ∧ [120; 121] ≠ [97; 98].
Proof. repeat split; try (vm_compute; reflexivity). discriminate. Qed.

(** The same happens when [train] is called again on a tokenizer that
    has special tokens: [train] keeps them, and their identifiers may
    collide with the identifiers of the new merges. Training with two
    merges, adding ["<s>"] (identifier 258) and training again with three
    merges gives a vocabulary whose entry 258 is ["<s>"]. *)
Example retrained_with_special_token :
  let t1 := (train scenario_corpus 258 init).2 in
  let t2 := (add_special_token [60; 115; 62] t1).1.2 in
  let t3 := (train scenario_corpus 259 t2).2 in
  special_tokens t3 = [([60; 115; 62], 258)]
  ∧ encode t3 scenario_corpus = Ok [258; 100; 258; 97; 99]
  ∧ decode t3 [258; 100; 258; 97; 99]
    = Ok [60; 115; 62; 100; 60; 115; 62; 97; 99].
Proof. repeat split; vm_compute; reflexivity. Qed.

(** ** Failure of [train] *)

Lemma top_pair_of_no_pairs tokens :
  (length tokens < 2)%nat →
  top_pair_of (_count_combinations tokens) = Raise ValueError.
Proof.
  intros Hlen%adjacent_pairs_short.
  destruct (top_pair_of (_count_combinations tokens)) as [p|e] eqn:Htop.
  - apply top_pair_of_Ok in Htop. rewrite Hlen in Htop.
    by apply elem_of_nil in Htop.
  - by apply top_pair_of_Raise in Htop as [-> _].
Qed.

Lemma train_loop_split k j i tokens merges :
  train_loop (k + j) i tokens merges
  = match train_loop k i tokens merges with
    | (Ok tokens', merges') =>
        train_loop j (i + Z.of_nat k) tokens' merges'
    | (Raise e, merges') => (Raise e, merges')
    end.
Proof.
  revert i tokens merges. induction k as [|k IH]; intros i tokens merges.
  - cbn. by rewrite Z.add_0_r.
  - cbn [Nat.add train_loop].
    destruct (top_pair_of (_count_combinations tokens)); [|done].
    rewrite IH. destruct (train_loop k _ _ _) as [[]]; [|done].
    f_equal. lia.
Qed.

(** Once fewer than two tokens are left before the last requested merge,
    the loop raises. *)
Lemma train_loop_exhausted n k tokens learned bs :
  (k < n)%nat → train_loop k 0 bs [] = (Ok tokens, learned) →
  (length tokens < 2)%nat →
  (train_loop n 0 bs []).1 = Raise ValueError.
Proof.
  intros Hk Hloop Hlen. replace n with (k + S (n - S k))%nat by lia.
  rewrite train_loop_split, Hloop. cbn [train_loop].
  by rewrite top_pair_of_no_pairs.
Qed.

Lemma train_loop_fails_train corpus vocab_size self bs :
  str_encode corpus = Ok bs →
  (train_loop (Z.to_nat (vocab_size - 256)) 0 bs []).1 = Raise ValueError →
  (train corpus vocab_size self).1 = Raise ValueError.
Proof.
  intros Hbs Hloop. unfold train. rewrite Hbs.
  destruct (train_loop _ 0 bs []) as [r learned]. cbn [fst] in Hloop.
  by rewrite Hloop.
Qed.

Lemma train_short_corpus corpus vocab_size self bs :
  str_encode corpus = Ok bs → 256 < vocab_size →
  Z.of_nat (length bs) ≤ vocab_size - 256 →
  (train corpus vocab_size self).1 = Raise ValueError.
Proof.
  intros Hbs Hsize Hlen. apply (train_loop_fails_train _ _ _ bs Hbs).
  apply train_loop_insufficient; lia.
Qed.

Lemma train_merge_count corpus vocab_size self st :
  train corpus vocab_size self = (Ok (), st) →
  Z.of_nat (length (merges st)) = Z.max 0 (vocab_size - 256).
Proof.
  intros (bs & tokens & Hbs & Hloop & _)%train_Ok.
  apply train_loop_replays in Hloop as [Hinv _];
    [|by eapply train_inv_start, str_encode_bytes].
  rewrite <- (length_fmap snd), (inv_ids _ _ _ Hinv), length_seqZ. lia.
Qed.

Lemma train_no_merges corpus vocab_size self bs :
  str_encode corpus = Ok bs → vocab_size ≤ 256 → special_tokens self = [] →
  train corpus vocab_size self = (Ok (), init).
Proof.
  intros Hbs Hsize Hspecial. unfold train. rewrite Hbs.
  replace (Z.to_nat (vocab_size - 256)) with 0%nat by lia.
  cbn [train_loop]. unfold _build_vocab. cbn [merges special_tokens].
  rewrite Hspecial. done.
Qed.

(** C5, as the code has it. [train] checks nothing about [vocab_size]:
    below 257 the loop body never runs and, for an encodable corpus and no
    special tokens, the call returns normally with no merges. For
    [vocab_size] above 256 the call raises [ValueError] (from [max] over an
    empty table of pairs) whenever the corpus cannot supply the merges:
    whenever fewer than two tokens are left after some [k] merges, [k]
    below the [vocab_size - 256] requested; this is so in particular when
    the corpus has no more bytes than merges were requested, as for the
    empty corpus with [vocab_size = 257]. A call that returns normally has
    learned exactly [vocab_size - 256] merges, never fewer. *)
Theorem train_insufficient_data (corpus : list Z) (vocab_size : Z)
    (self : tokenizer) (bs : list Z) :
  str_encode corpus = Ok bs →
  (∀ k tokens learned,
     (k < Z.to_nat (vocab_size - 256))%nat →
     train_loop k 0 bs [] = (Ok tokens, learned) →
     (length tokens < 2)%nat →
     (train corpus vocab_size self).1 = Raise ValueError)
  ∧ (256 < vocab_size → Z.of_nat (length bs) ≤ vocab_size - 256 →
       (train corpus vocab_size self).1 = Raise ValueError)
  ∧ (train [] 257 self).1 = Raise ValueError
  ∧ (∀ st, train corpus vocab_size self = (Ok (), st) →
       Z.of_nat (length (merges st)) = Z.max 0 (vocab_size - 256))
  ∧ (vocab_size ≤ 256 → special_tokens self = [] →
       train corpus vocab_size self = (Ok (), init)).
Proof.
  intros Hbs. split.
  { intros k tokens learned Hk Hloop Hlen.
    apply (train_loop_fails_train _ _ _ bs Hbs).
    by apply (train_loop_exhausted _ k tokens learned). }
  split; [by apply train_short_corpus|].
  split; [by apply (train_short_corpus [] 257 self [])|].
  split; [apply train_merge_count|].
  by apply (train_no_merges _ _ _ bs).
Qed.

(** ["aaaa"] supplies two merges and no third; ["ab"] does not supply
    two. *)
Lemma train_insufficient_data_witness :
  str_encode [97; 97; 97; 97] = Ok [97; 97; 97; 97]
  ∧ (2 < Z.to_nat (259 - 256))%nat
  ∧ train_loop 2 0 [97; 97; 97; 97] [] = (Ok [257], [(97, 97, 256); (256, 256, 257)])
  ∧ (length [257] < 2)%nat
  ∧ (train [97; 97; 97; 97] 259 init).1 = Raise ValueError
  ∧ str_encode [97; 98] = Ok [97; 98]
  ∧ (train [97; 98] 258 init).1 = Raise ValueError
  ∧ (train [] 257 init).1 = Raise ValueError
  ∧ train [97; 98] 256 init = (Ok (), init).
Proof.
  pose proof (train_insufficient_data [97; 97; 97; 97] 259 init
                [97; 97; 97; 97] eq_refl) as (Hgeneral & _).
  pose proof (train_insufficient_data [97; 98] 258 init [97; 98] eq_refl)
    as (_ & Hshort & Hempty & _).
  pose proof (train_insufficient_data [97; 98] 256 init [97; 98] eq_refl)
    as (_ & _ & _ & _ & Hnone).
  assert (2 < Z.to_nat (259 - 256))%nat as Hk by (vm_compute; lia).
  assert (train_loop 2 0 [97; 97; 97; 97] []
          = (Ok [257], [(97, 97, 256); (256, 256, 257)])) as Hloop
    by (vm_compute; reflexivity).
  assert (length [257] < 2)%nat as Hlen by (vm_compute; lia).
  split; [reflexivity|]. split; [exact Hk|]. split; [exact Hloop|].
  split; [exact Hlen|]. split; [exact (Hgeneral _ _ _ Hk Hloop Hlen)|].
  split; [reflexivity|]. split; [apply Hshort; [lia | cbn; lia]|].
  split; [exact Hempty|]. apply Hnone; [lia | reflexivity].
Defined.

(** C5 as stated fails: with [vocab_size] below 256 the call returns
    normally, having learned nothing. *)
Lemma train_small_vocab_size_returns :
  train [104; 105] 200 init = (Ok (), init) ∧ merges init = [].
Proof. split; vm_compute; reflexivity. Qed.

(** ** [add_special_token] *)

Lemma add_special_token_vocab special_str self :
  vocab (add_special_token special_str self).1.2 = vocab self.
Proof.
  unfold add_special_token.
  destruct (length (merges self) =? 0)%nat; [done|].
  by destruct (od_get special_str (special_tokens self)).
Qed.

(** C7. [add_special_token] always returns normally. Called before any
    merge exists, or with a string that is already registered, it prints
    one failure message and leaves the tokenizer exactly as it was. *)
Theorem add_special_token_guard (special_str : list Z) (self : tokenizer) :
  (add_special_token special_str self).1.1 = Ok ()
  ∧ (merges self = [] →
       add_special_token special_str self = (Ok (), self, [FailBeforeTraining]))
  ∧ (merges self ≠ [] → special_str ∈ od_keys (special_tokens self) →
       add_special_token special_str self
       = (Ok (), self, [FailAlreadyExists special_str])).
Proof.
  unfold add_special_token. split; [|split].
  - destruct (length (merges self) =? 0)%nat; [done|].
    by destruct (od_get special_str (special_tokens self)).
  - by intros ->.
  - intros Hmerges Hin.
    destruct (merges self) as [|rule rules]; [done|]. cbn [length Nat.eqb].
    destruct (od_get special_str (special_tokens self)) eqn:Hget; [done|].
    by apply od_get_None in Hget.
Qed.

Lemma add_special_token_guard_witness :
  merges init = []
  ∧ add_special_token [60; 115; 62] init = (Ok (), init, [FailBeforeTraining])
  ∧ [((97, 97), 256)] ≠ []
  ∧ [60; 115; 62] ∈ od_keys [([60; 115; 62], 257)]
  ∧ add_special_token [60; 115; 62]
      (Tokenizer [((97, 97), 256)] [([60; 115; 62], 257)] byte_vocab)
    = (Ok (), Tokenizer [((97, 97), 256)] [([60; 115; 62], 257)] byte_vocab,
       [FailAlreadyExists [60; 115; 62]]).
Proof.
  split; [reflexivity|].
  split; [by apply (add_special_token_guard [60; 115; 62] init)|].
  split; [done|]. split; [left|].
  apply (add_special_token_guard [60; 115; 62]
           (Tokenizer [((97, 97), 256)] [([60; 115; 62], 257)] byte_vocab));
    [done | left].
Defined.

(** The identifier given to a new special token. *)
Lemma add_special_token_new special_str self :
  merges self ≠ [] → special_str ∉ od_keys (special_tokens self) →
  add_special_token special_str self
  = (Ok (),
     Tokenizer (merges self)
       (special_tokens self
        ++ [(special_str, 256 + Z.of_nat (length (merges self))
                          + Z.of_nat (length (special_tokens self)))])
       (vocab self),
     []).
Proof.
  intros Hmerges Hfresh. unfold add_special_token.
  destruct (merges self) as [|rule rules] eqn:Heq; [done|].
  cbn [length Nat.eqb]. rewrite (proj2 (od_get_None _ _)) by done.
  by rewrite od_set_fresh by done.
Qed.

(** C6. [add_special_token] assigns the identifier the claim states, but it
    never rebuilds the vocabulary: [self.vocab] is the same before and
    after any call. On the scenario tokenizer the new token ["<s>"] gets
    identifier 259, the vocabulary has no entry for it, and decoding it
    raises [KeyError]; the entry appears only in what [_build_vocab] would
    return. *)
Theorem add_special_token_stale_vocab :
  (∀ special_str self,
     vocab (add_special_token special_str self).1.2 = vocab self)
  ∧ special_tokens (add_special_token [60; 115; 62] trained_scenario).1.2
    = [([60; 115; 62], 259)]
  ∧ vocab (add_special_token [60; 115; 62] trained_scenario).1.2 !! 259 = None
  ∧ decode (add_special_token [60; 115; 62] trained_scenario).1.2 [259]
    = Raise KeyError
  ∧ (v ← _build_vocab (add_special_token [60; 115; 62] trained_scenario).1.2;
     Ok (v !! 259)) = Ok (Some [60; 115; 62]).
Proof.
  split; [apply add_special_token_vocab|].
  repeat split; vm_compute; reflexivity.
Qed.

(** ** [decode] *)

Lemma vocab_lookups_Ok vocab ids :
  Forall (fun idx => is_Some (vocab !! idx)) ids →
  ∃ chunks, Forall2 (fun idx bs => vocab !! idx = Some bs) ids chunks
            ∧ vocab_lookups vocab ids = Ok chunks.
Proof.
  induction 1 as [|idx ids [bs Hbs] _ (chunks & Hall & Hlook)].
  - exists []. split; [constructor | done].
  - exists (bs :: chunks). split; [by constructor|].
    cbn [vocab_lookups]. by rewrite Hbs, Hlook.
Qed.

Lemma vocab_lookups_KeyError vocab ids :
  Exists (fun idx => vocab !! idx = None) ids →
  vocab_lookups vocab ids = Raise KeyError.
Proof.
  induction 1 as [idx ids Hnone | idx ids _ IH]; cbn [vocab_lookups].
  - by rewrite Hnone.
  - destruct (vocab !! idx); [|done]. by rewrite IH.
Qed.

Lemma vocab_lookups_raises vocab ids e :
  vocab_lookups vocab ids = Raise e → e = KeyError.
Proof.
  induction ids as [|idx ids IH]; cbn [vocab_lookups]; [done|].
  destruct (vocab !! idx); [|by intros [= <-]].
  destruct (vocab_lookups vocab ids); [done|]. cbn. intros [= <-]. by apply IH.
Qed.

Lemma all_decoded_replace steps :
  match all_decoded steps with
  | Ok s => default replacement_character <$> steps = s
  | Raise _ => replacement_character ∈ default replacement_character <$> steps
  end.
Proof.
  induction steps as [|[c|] steps IH]; cbn [all_decoded]; [done| |].
  - rewrite fmap_cons. destruct (all_decoded steps); cbn.
    + by rewrite IH.
    + by right.
  - rewrite fmap_cons. left.
Qed.

(** *** How malformed bytes are decoded *)

Lemma utf8_decode_encode_app s rest :
  forallb is_scalar s = true →
  utf8_decode_steps (flat_map utf8_encode_cp s ++ rest)
  = (Some <$> s) ++ utf8_decode_steps rest.
Proof.
  induction s as [|c s IH]; [done|]. cbn [forallb flat_map].
  intros [Hc Hs]%andb_true_iff. rewrite <- app_assoc, fmap_cons.
  rewrite utf8_decode_encode_cp by done. cbn [app]. by rewrite IH.
Qed.

(** A byte that cannot begin a character is one malformed subsequence. *)
Lemma utf8_decode_invalid_start b r :
  0x80 ≤ b < 0xC2 ∨ 0xF5 ≤ b →
  utf8_decode_steps (b :: r) = None :: utf8_decode_steps r.
Proof.
  intros Hb. cbn [utf8_decode_steps].
  rewrite (proj2 (Z.ltb_ge _ _)) by lia.
  rewrite (proj2 (in_range_false 0xC2 _ _)) by lia.
  rewrite (proj2 (in_range_false 0xE0 _ _)) by lia.
  by rewrite (proj2 (in_range_false 0xF0 _ _)) by lia.
Qed.

(** A byte that begins a character of several bytes, at the end of the
    input, is one malformed subsequence. *)
Lemma utf8_decode_lone_lead b :
  0xC2 ≤ b ≤ 0xF4 → utf8_decode_steps [b] = [None].
Proof.
  intros Hb. cbn [utf8_decode_steps].
  rewrite (proj2 (Z.ltb_ge _ _)) by lia.
  destruct (in_range 0xC2 0xDF b) eqn:H2; [done|].
  destruct (in_range 0xE0 0xEF b) eqn:H3; [done|].
  apply in_range_false in H2, H3.
  by rewrite (proj2 (in_range_true 0xF0 _ _)) by lia.
Qed.

Lemma bytes_decode_replace_invalid_start T pre b rest :
  str_encode T = Ok pre → 0x80 ≤ b < 0xC2 ∨ 0xF5 ≤ b →
  bytes_decode_replace (pre ++ b :: rest)
  = T ++ replacement_character :: bytes_decode_replace rest.
Proof.
  intros [HT ->]%str_encode_Ok Hb. unfold bytes_decode_replace.
  rewrite utf8_decode_encode_app by done.
  rewrite utf8_decode_invalid_start by done.
  rewrite fmap_app, fmap_cons, <- list_fmap_compose. cbn.
  by rewrite list_fmap_id.
Qed.

Lemma bytes_decode_replace_lone_lead T pre b :
  str_encode T = Ok pre → 0xC2 ≤ b ≤ 0xF4 →
  bytes_decode_replace (pre ++ [b]) = T ++ [replacement_character].
Proof.
  intros [HT ->]%str_encode_Ok Hb. unfold bytes_decode_replace.
  rewrite utf8_decode_encode_app by done.
  rewrite utf8_decode_lone_lead by done.
  rewrite fmap_app, <- list_fmap_compose. cbn.
  by rewrite list_fmap_id.
Qed.

Lemma vocab_lookups_Forall2 vocab ids chunks :
  Forall2 (fun idx bs => vocab !! idx = Some bs) ids chunks →
  vocab_lookups vocab ids = Ok chunks.
Proof.
  induction 1 as [|idx bs ids chunks Hbs _ IH]; [done|].
  cbn [vocab_lookups]. by rewrite Hbs, IH.
Qed.

(** C8. [decode] looks every identifier up in the vocabulary. When all are
    present it returns, without raising, the lossy UTF-8 decoding of the
    concatenated byte strings. Where these bytes are the UTF-8 encoding of
    a text, that text is returned, and where the strict decoder raises,
    the returned text holds the replacement character U+FFFD: a byte that
    cannot begin a character, after well-formed bytes, is decoded to one
    U+FFFD between the text before it and the decoding of what follows,
    and a lead byte left alone at the end to one U+FFFD. When an
    identifier is absent the call raises [KeyError]. *)
Theorem decode_lookup (self : tokenizer) (ids : list Z) :
  (Forall (fun idx => is_Some (vocab self !! idx)) ids →
     ∃ chunks,
       Forall2 (fun idx bs => vocab self !! idx = Some bs) ids chunks
       ∧ decode self ids = Ok (bytes_decode_replace (concat chunks))
       ∧ match bytes_decode_strict (concat chunks) with
         | Ok text => decode self ids = Ok text
         | Raise _ =>
             replacement_character ∈ bytes_decode_replace (concat chunks)
         end)
  ∧ (∀ chunks,
       Forall2 (fun idx bs => vocab self !! idx = Some bs) ids chunks →
       (∀ T, str_encode T = Ok (concat chunks) → decode self ids = Ok T)
       ∧ (∀ T pre b rest,
            str_encode T = Ok pre → 0x80 ≤ b < 0xC2 ∨ 0xF5 ≤ b →
            concat chunks = pre ++ b :: rest →
            decode self ids
            = Ok (T ++ replacement_character :: bytes_decode_replace rest))
       ∧ (∀ T pre b,
            str_encode T = Ok pre → 0xC2 ≤ b ≤ 0xF4 →
            concat chunks = pre ++ [b] →
            decode self ids = Ok (T ++ [replacement_character])))
  ∧ (Exists (fun idx => vocab self !! idx = None) ids →
       decode self ids = Raise KeyError).
Proof.
  split; [|split].
  - intros (chunks & Hall & Hlook)%vocab_lookups_Ok. exists chunks.
    assert (decode self ids = Ok (bytes_decode_replace (concat chunks))) as Hd.
    { unfold decode, bytes_join. by rewrite Hlook. }
    split; [done|]. split; [done|].
    pose proof (all_decoded_replace (utf8_decode_steps (concat chunks))) as Hr.
    unfold bytes_decode_strict.
    destruct (all_decoded _); [|done]. by rewrite Hd, <- Hr.
  - intros chunks Hlook%vocab_lookups_Forall2.
    assert (decode self ids = Ok (bytes_decode_replace (concat chunks))) as Hd.
    { unfold decode, bytes_join. by rewrite Hlook. }
    rewrite Hd. split; [|split].
    + intros T HT. by rewrite (bytes_decode_replace_encode _ _ HT).
    + intros T pre b rest HT Hb ->.
      by rewrite (bytes_decode_replace_invalid_start T pre b rest).
    + intros T pre b HT Hb ->.
      by rewrite (bytes_decode_replace_lone_lead T pre b).
  - intros Hex%vocab_lookups_KeyError. unfold decode, bytes_join.
    by rewrite Hex.
Qed.

(** ["h"] then the stray byte [0xFF] decode to ["h"] and U+FFFD; the
    bytes of ["é"] decode to ["é"]; the lead byte [0xE2] alone after
    ["h"] gives U+FFFD; identifier 256 is unknown to a fresh tokenizer. *)
Lemma decode_lookup_witness :
  Forall (fun idx => is_Some (vocab init !! idx)) [104; 255]
  ∧ (∃ chunks,
       Forall2 (fun idx bs => vocab init !! idx = Some bs) [104; 255] chunks
       ∧ decode init [104; 255] = Ok (bytes_decode_replace (concat chunks))
       ∧ match bytes_decode_strict (concat chunks) with
         | Ok text => decode init [104; 255] = Ok text
         | Raise _ =>
             replacement_character ∈ bytes_decode_replace (concat chunks)
         end)
  ∧ Forall2 (fun idx bs => vocab init !! idx = Some bs)
      [104; 255] [[104]; [255]]
  ∧ decode init [104; 255] = Ok [104; 0xFFFD]
  ∧ Forall2 (fun idx bs => vocab init !! idx = Some bs)
      [195; 169] [[195]; [169]]
  ∧ decode init [195; 169] = Ok [233]
  ∧ Forall2 (fun idx bs => vocab init !! idx = Some bs)
      [104; 226] [[104]; [226]]
  ∧ decode init [104; 226] = Ok [104; 0xFFFD]
  ∧ Exists (fun idx => vocab init !! idx = None) [104; 256]
  ∧ decode init [104; 256] = Raise KeyError.
Proof.
  assert (Forall (fun idx => is_Some (vocab init !! idx)) [104; 255]) as Hall.
  { repeat constructor; vm_compute; eauto. }
  assert (Exists (fun idx => vocab init !! idx = None) [104; 256]) as Hex.
  { right. left. vm_compute. reflexivity. }
  assert (Forall2 (fun idx bs => vocab init !! idx = Some bs)
            [104; 255] [[104]; [255]]) as H1
    by (repeat constructor; vm_compute; reflexivity).
  assert (Forall2 (fun idx bs => vocab init !! idx = Some bs)
            [195; 169] [[195]; [169]]) as H2
    by (repeat constructor; vm_compute; reflexivity).
  assert (Forall2 (fun idx bs => vocab init !! idx = Some bs)
            [104; 226] [[104]; [226]]) as H3
    by (repeat constructor; vm_compute; reflexivity).
  split; [exact Hall|].
  split; [by apply (decode_lookup init [104; 255])|].
  split; [exact H1|].
  split.
  { apply (proj1 (proj2 (proj1 (proj2 (decode_lookup init [104; 255])) _ H1))
             [104] [104] 255 []); [reflexivity | lia | reflexivity]. }
  split; [exact H2|].
  split.
  { apply (proj1 (proj1 (proj2 (decode_lookup init [195; 169])) _ H2) [233]).
    reflexivity. }
  split; [exact H3|].
  split.
  { apply (proj2 (proj2 (proj1 (proj2 (decode_lookup init [104; 226])) _ H3))
             [104] [104] 226); [reflexivity | lia | reflexivity]. }
  split; [exact Hex | by apply (decode_lookup init [104; 256])].
Defined.

Example decode_replaces_malformed_bytes :
  decode init [104; 255] = Ok [104; replacement_character].
Proof. vm_compute. reflexivity. Qed.

(** ** Integers as text *)

Lemma digits_loop_acc fuel n acc :
  digits_loop fuel n acc = digits_loop fuel n [] ++ acc.
Proof.
  revert n acc. induction fuel as [|fuel IH]; intros n acc;
    cbn [digits_loop]; [done|].
  destruct (n <? 10); [done|].
  rewrite IH, (IH _ [_]). by rewrite <- app_assoc.
Qed.

Lemma digits_loop_value fuel n :
  0 ≤ n < 2 ^ Z.of_nat fuel →
  (0 < fuel)%nat →
  Forall (fun c => 48 ≤ c ≤ 57) (digits_loop fuel n [])
  ∧ digits_loop fuel n [] ≠ []
  ∧ digits_value (digits_loop fuel n []) 0 = n.
Proof.
  revert n. induction fuel as [|fuel IH]; intros n Hn Hfuel; [lia|].
  cbn [digits_loop]. destruct (Z.ltb_spec n 10) as [Hlt|Hge].
  - split; [|split; [done | cbn; lia]].
    apply Forall_cons_2; [lia | apply Forall_nil_2].
  - rewrite digits_loop_acc.
    assert (0 ≤ n / 10 < 2 ^ Z.of_nat fuel) as Hdiv.
    { rewrite Nat2Z.inj_succ, Z.pow_succ_r in Hn by lia.
      Z.div_mod_to_equations. lia. }
    assert (0 < fuel)%nat as Hpos.
    { destruct fuel; [|lia]. cbn in Hdiv. Z.div_mod_to_equations. lia. }
    destruct (IH _ Hdiv Hpos) as (Hdigits & Hne & Hval).
    split; [|split].
    + apply Forall_app_2; [done|].
      apply Forall_cons_2; [|apply Forall_nil_2].
      Z.div_mod_to_equations. lia.
    + by destruct (digits_loop fuel (n / 10) []).
    + unfold digits_value in *. rewrite fold_left_app, Hval. cbn.
      Z.div_mod_to_equations. lia.
Qed.

Lemma decimal_digits_value n :
  0 ≤ n →
  Forall (fun c => 48 ≤ c ≤ 57) (decimal_digits n)
  ∧ decimal_digits n ≠ []
  ∧ digits_value (decimal_digits n) 0 = n.
Proof.
  intros Hn. apply digits_loop_value; [|lia]. split; [done|].
  destruct (decide (n = 0)) as [->|]; [done|].
  rewrite Nat2Z.inj_succ, Z2Nat.id by apply Z.log2_nonneg.
  apply Z.log2_spec. lia.
Qed.

Lemma parse_digits_all acc ds :
  Forall (fun c => 48 ≤ c ≤ 57) ds →
  parse_digits acc true ds = Ok (digits_value ds acc).
Proof.
  intros Hds. revert acc. induction Hds as [|c ds Hc _ IH]; intros acc;
    [done|].
  cbn [parse_digits]. unfold is_digit.
  rewrite (proj2 (in_range_true _ _ _)) by done. apply IH.
Qed.

Lemma parse_decimal_digits n :
  0 ≤ n → parse_digits 0 false (decimal_digits n) = Ok n.
Proof.
  intros (Hds & Hne & Hval)%decimal_digits_value.
  destruct (decimal_digits n) as [|c ds]; [done|].
  apply Forall_cons in Hds as [Hc Hds]. cbn [parse_digits].
  unfold is_digit. rewrite (proj2 (in_range_true _ _ _)) by done.
  rewrite parse_digits_all by done. by rewrite <- Hval.
Qed.

(** The characters of [str(n)]: a minus sign or decimal digits. *)
Lemma py_str_of_int_chars n :
  Forall (fun c => c = 45 ∨ 48 ≤ c ≤ 57) (py_str_of_int n)
  ∧ py_str_of_int n ≠ [].
Proof.
  unfold py_str_of_int. destruct (Z.ltb_spec n 0).
  - split; [|done]. apply Forall_cons_2; [by left|].
    destruct (decimal_digits_value (- n)) as (Hds & _); [lia|].
    eapply Forall_impl; [exact Hds|]. cbn; auto.
  - destruct (decimal_digits_value n) as (Hds & Hne & _); [lia|].
    split; [|done]. eapply Forall_impl; [exact Hds|]. cbn; auto.
Qed.

Lemma lstrip_no_space s :
  Forall (fun c => is_space c = false) s → lstrip s = s.
Proof. destruct 1 as [|c s Hc _]; [done|]. cbn [lstrip]. by rewrite Hc. Qed.

Lemma strip_no_space s :
  Forall (fun c => is_space c = false) s → strip s = s.
Proof.
  intros Hs. unfold strip. rewrite (lstrip_no_space s) by done.
  rewrite lstrip_no_space; [apply rev_involutive|].
  apply Forall_forall. intros c Hc. rewrite Forall_forall in Hs.
  apply Hs. apply list_elem_of_In. apply in_rev.
  by apply list_elem_of_In.
Qed.

Lemma to_ascii_decimal_ascii s :
  Forall (fun c => c < 127) s → to_ascii_decimal <$> s = s.
Proof.
  induction 1 as [|c s Hc _ IH]; [done|]. rewrite fmap_cons, IH.
  unfold to_ascii_decimal. by rewrite (proj2 (Z.ltb_lt _ _) Hc).
Qed.

Lemma py_int_of_str n : py_int (py_str_of_int n) = Ok n.
Proof.
  destruct (py_str_of_int_chars n) as [Hchars _].
  unfold py_int. rewrite to_ascii_decimal_ascii.
  2:{ eapply Forall_impl; [exact Hchars|]. cbn. intros c Hc. lia. }
  rewrite strip_no_space.
  2:{ eapply Forall_impl; [exact Hchars|]. cbn. intros c Hc.
      unfold is_space, in_range.
      repeat (apply orb_false_intro); try (apply andb_false_iff);
        rewrite ?Z.leb_gt, ?Z.eqb_neq; lia. }
  unfold py_str_of_int. destruct (Z.ltb_spec n 0).
  - cbn [Z.eqb]. rewrite parse_decimal_digits by lia. cbn. f_equal. lia.
  - destruct (decimal_digits_value n) as (Hds & Hne & _); [lia|].
    pose proof (parse_decimal_digits n ltac:(lia)) as Hparse.
    destruct (decimal_digits n) as [|c ds]; [done|].
    apply Forall_cons in Hds as [Hc _].
    destruct (Z.eqb_spec c 45); [lia|]. destruct (Z.eqb_spec c 43); [lia|].
    done.
Qed.

(** The separator U+001C is not skipped, digits of other scripts count,
    white space from U+007F on is skipped at the ends. *)
Example py_int_examples :
  py_int [28; 57; 55] = Raise ValueError
  ∧ py_int [0x669; 0x667] = Ok 97
  ∧ py_int [0x3000; 45; 0xFF11; 95; 48; 10] = Ok (-10)
  ∧ py_int [49; 95; 95; 48] = Raise ValueError
  ∧ py_int [0xB2] = Raise ValueError.
Proof. repeat split; vm_compute; reflexivity. Qed.

(** ** Lines of a text file *)

Lemma py_split_no_sep sep s : sep ∉ s → py_split sep s = [s].
Proof.
  induction s as [|c s IH]; [done|]. intros [Hc Hs]%not_elem_of_cons.
  cbn [py_split]. destruct (Z.eqb_spec c sep); [done|]. by rewrite IH.
Qed.

Lemma py_split_app sep s rest :
  sep ∉ s → py_split sep (s ++ sep :: rest) = s :: py_split sep rest.
Proof.
  induction s as [|c s IH]; cbn [app py_split].
  - intros _. by rewrite Z.eqb_refl.
  - intros [Hc Hs]%not_elem_of_cons.
    destruct (Z.eqb_spec c sep); [done|]. by rewrite IH.
Qed.

Lemma file_rows_lines (lines : list (list Z)) :
  Forall (fun line => newline ∉ line) lines →
  file_rows (concat ((fun line => line ++ [newline]) <$> lines)) = lines.
Proof.
  intros Hlines. unfold file_rows.
  assert (py_split newline (concat ((fun line => line ++ [newline]) <$> lines))
          = lines ++ [[]]) as ->; [|apply removelast_last].
  induction Hlines as [|line lines Hline _ IH]; [done|].
  rewrite fmap_cons. cbn [concat]. rewrite <- app_assoc. cbn [app].
  rewrite py_split_app by done. by rewrite IH.
Qed.

Lemma universal_newlines_id s :
  carriage_return ∉ s → universal_newlines s = s.
Proof.
  induction s as [|c s IH]; [done|]. intros [Hc Hs]%not_elem_of_cons.
  cbn [universal_newlines]. destruct (Z.eqb_spec c carriage_return); [done|].
  by rewrite IH.
Qed.

Lemma forallb_is_scalar_app s1 s2 :
  forallb is_scalar (s1 ++ s2)
  = forallb is_scalar s1 && forallb is_scalar s2.
Proof. apply forallb_app. Qed.

(** Lines that can be encoded and hold no carriage return are read back
    as they were written. *)
Lemma write_read_lines (lines : list (list Z)) :
  Forall (fun line => forallb is_scalar line = true) lines →
  Forall (fun line => carriage_return ∉ line) lines →
  ∃ bs, write_lines lines = (bs, Ok ())
        ∧ read_text (Some bs) = Ok (concat lines).
Proof.
  intros Hscalar Hcr.
  assert (write_lines lines = (flat_map utf8_encode_cp (concat lines), Ok ())
          ∧ forallb is_scalar (concat lines) = true
          ∧ carriage_return ∉ concat lines) as (Hwrite & Hall & Hno).
  { induction Hscalar as [|line lines Hline _ IH].
    - split; [done|]. split; [done | apply not_elem_of_nil].
    - apply Forall_cons in Hcr as [Hcr1 Hcr2].
      destruct (IH Hcr2) as (Hw & Hs & Hc).
      cbn [write_lines concat]. unfold str_encode. rewrite Hline, Hw.
      split; [by rewrite flat_map_app|].
      split; [by rewrite forallb_is_scalar_app, Hline, Hs|].
      rewrite elem_of_app. tauto. }
  eexists. split; [exact Hwrite|]. unfold read_text.
  rewrite (bytes_decode_strict_encode (concat lines)).
  - cbn. by rewrite universal_newlines_id.
  - unfold str_encode. by rewrite Hall.
Qed.

Lemma ascii_is_scalar s :
  Forall (fun c => 0 ≤ c < 128) s → forallb is_scalar s = true.
Proof.
  intros Hs. apply forallb_forall. intros c Hc%list_elem_of_In.
  rewrite Forall_forall in Hs. apply Hs in Hc. unfold is_scalar. lia.
Qed.

(** ** Rows of the merges file *)

Lemma merge_row_chars key :
  ∃ line, merge_row key = line ++ [newline]
          ∧ line = py_str_of_int key.1 ++ space :: py_str_of_int key.2
          ∧ Forall (fun c => 0 ≤ c < 128) (merge_row key)
          ∧ (newline ∉ line) ∧ (carriage_return ∉ merge_row key).
Proof.
  destruct (py_str_of_int_chars key.1) as [H1 _].
  destruct (py_str_of_int_chars key.2) as [H2 _].
  rewrite Forall_forall in H1. rewrite Forall_forall in H2.
  exists (py_str_of_int key.1 ++ space :: py_str_of_int key.2).
  unfold merge_row, space, newline, carriage_return.
  split; [by rewrite <- !app_assoc|]. split; [done|].
  split; [|split].
  - apply Forall_forall. intros c. rewrite !elem_of_app, !list_elem_of_singleton.
    intros [Hc|[->|[Hc| ->]]]; [apply H1 in Hc| |apply H2 in Hc|]; lia.
  - rewrite elem_of_app, elem_of_cons.
    intros [Hc|[|Hc]]; [apply H1 in Hc| |apply H2 in Hc]; lia.
  - rewrite !elem_of_app, !list_elem_of_singleton.
    intros [Hc|[|[Hc|]]]; [apply H1 in Hc| |apply H2 in Hc|]; lia.
Qed.

Lemma parse_merge_row key :
  parse_row (py_str_of_int key.1 ++ space :: py_str_of_int key.2) = Ok key.
Proof.
  destruct (py_str_of_int_chars key.1) as [H1 _].
  destruct (py_str_of_int_chars key.2) as [H2 _].
  rewrite Forall_forall in H1. rewrite Forall_forall in H2.
  unfold parse_row. rewrite py_split_app, py_split_no_sep.
  - rewrite !py_int_of_str. by destruct key.
  - intros Hc%H2. unfold space in Hc. lia.
  - intros Hc%H1. unfold space in Hc. lia.
Qed.

(** ** [load] after [save] *)

Lemma load_merges_saved keys i merges :
  NoDup keys → (∀ k, k ∈ keys → k ∉ od_keys merges) →
  load_merges
    ((fun key => py_str_of_int key.1 ++ space :: py_str_of_int key.2) <$> keys)
    i merges
  = (Ok (), merges ++ zip keys (seqZ (i + 256) (Z.of_nat (length keys)))).
Proof.
  intros Hnodup. revert i merges.
  induction Hnodup as [|key keys Hkey _ IH]; intros i merges Hfresh.
  - cbn. by rewrite app_nil_r.
  - rewrite fmap_cons. cbn [load_merges]. rewrite parse_merge_row.
    rewrite od_set_fresh by (apply Hfresh; left).
    rewrite IH.
    + cbn [length]. rewrite Nat2Z.inj_succ, (seqZ_cons (i + 256)) by lia.
      cbn [zip zip_with]. rewrite <- app_assoc. cbn [app].
      replace (Z.succ (i + 256)) with (i + 1 + 256) by lia.
      by rewrite Z.pred_succ.
    + intros k Hk. unfold od_keys. rewrite fmap_app, elem_of_app.
      cbn. rewrite list_elem_of_singleton. intros [Hin| ->]; [|done].
      apply (Hfresh k); [by right | done].
Qed.

Lemma load_special_saved rows i merges_length special :
  NoDup rows → (∀ s, s ∈ rows → s ∉ od_keys special) →
  load_special rows i merges_length special
  = special ++ zip rows (seqZ (i + 256 + merges_length)
                           (Z.of_nat (length rows))).
Proof.
  intros Hnodup. revert i special.
  induction Hnodup as [|row rows Hrow _ IH]; intros i special Hfresh.
  - cbn. by rewrite app_nil_r.
  - cbn [load_special]. rewrite od_set_fresh by (apply Hfresh; left).
    rewrite IH.
    + cbn [length].
      rewrite Nat2Z.inj_succ, (seqZ_cons (i + 256 + merges_length)) by lia.
      cbn [zip zip_with]. rewrite <- app_assoc. cbn [app].
      replace (Z.succ (i + 256 + merges_length))
        with (i + 1 + 256 + merges_length) by lia.
      by rewrite Z.pred_succ.
    + intros s Hs. unfold od_keys. rewrite fmap_app, elem_of_app.
      cbn. rewrite list_elem_of_singleton. intros [Hin| ->]; [|done].
      apply (Hfresh s); [by right | done].
Qed.

Lemma positional_zip {K} (d : list (K * Z)) (start : Z) :
  d.*2 = seqZ start (Z.of_nat (length d)) →
  zip (od_keys d) (seqZ start (Z.of_nat (length d))) = d.
Proof. intros <-. apply zip_fst_snd. Qed.

Lemma vocab_add_special_encodable items vocab vocab' :
  vocab_add_special items vocab = Ok vocab' →
  Forall (fun s => forallb is_scalar s = true) (od_keys items).
Proof.
  revert vocab. induction items as [|[s idx] items IH]; intros vocab.
  - intros _. apply Forall_nil_2.
  - cbn [vocab_add_special]. destruct (str_encode s) as [bs|] eqn:Hs; [|done].
    intros Hrest%IH. apply Forall_cons_2; [|done].
    by apply str_encode_Ok in Hs as [Hs _].
Qed.

Lemma build_vocab_encodable self v :
  _build_vocab self = Ok v →
  Forall (fun s => forallb is_scalar s = true) (od_keys (special_tokens self)).
Proof.
  unfold _build_vocab.
  destruct (vocab_add_merges (merges self) byte_vocab); [|done]. cbn.
  apply vocab_add_special_encodable.
Qed.

(** What [save] writes, read back as text rows. *)
Lemma saved_merges_rows (keys : list (Z * Z)) :
  ∃ bs, write_lines (merge_row <$> keys) = (bs, Ok ())
        ∧ ∃ text, read_text (Some bs) = Ok text
                  ∧ file_rows text
                    = (fun key => py_str_of_int key.1
                                  ++ space :: py_str_of_int key.2) <$> keys.
Proof.
  destruct (write_read_lines (merge_row <$> keys)) as (bs & Hw & Hr).
  - apply Forall_fmap, Forall_forall. intros key _.
    destruct (merge_row_chars key) as (line & _ & _ & Hascii & _).
    by apply ascii_is_scalar.
  - apply Forall_fmap, Forall_forall. intros key _.
    by destruct (merge_row_chars key) as (line & _ & _ & _ & _ & Hcr).
  - exists bs. split; [done|]. eexists. split; [exact Hr|].
    assert (merge_row <$> keys
            = (fun line => line ++ [newline])
              <$> ((fun key => py_str_of_int key.1
                               ++ space :: py_str_of_int key.2) <$> keys))
      as ->.
    { rewrite <- list_fmap_compose. apply list_fmap_ext. intros _ key _.
      cbn. unfold merge_row. by rewrite <- !app_assoc. }
    apply file_rows_lines. apply Forall_fmap, Forall_forall. intros key _.
    destruct (merge_row_chars key) as (line & _ & -> & _ & Hnl & _). done.
Qed.

Lemma saved_special_rows (rows : list (list Z)) :
  Forall (fun s => forallb is_scalar s = true) rows →
  Forall (fun s => (newline ∉ s) ∧ (carriage_return ∉ s)) rows →
  ∃ bs, write_lines (special_row <$> rows) = (bs, Ok ())
        ∧ ∃ text, read_text (Some bs) = Ok text ∧ file_rows text = rows.
Proof.
  intros Hscalar Hclean.
  destruct (write_read_lines (special_row <$> rows)) as (bs & Hw & Hr).
  - apply Forall_fmap. eapply Forall_impl; [exact Hscalar|].
    cbn. intros s Hs. unfold special_row.
    by rewrite forallb_is_scalar_app, Hs.
  - apply Forall_fmap. eapply Forall_impl; [exact Hclean|].
    cbn. intros s [_ Hcr]. unfold special_row.
    rewrite elem_of_app, list_elem_of_singleton. intros [|]; done.
  - exists bs. split; [done|]. eexists. split; [exact Hr|].
    apply file_rows_lines. eapply Forall_impl; [exact Hclean|].
    cbn. tauto.
Qed.

Lemma save_Ok folder_name self fs merges_bytes special_bytes :
  fs !! folder_name ≠ Some RegularFile →
  write_lines (merge_row <$> od_keys (merges self)) = (merges_bytes, Ok ()) →
  write_lines (special_row <$> od_keys (special_tokens self))
  = (special_bytes, Ok ()) →
  ∃ fs', save folder_name self fs = (Ok (), fs')
         ∧ fs' !! folder_name
           = Some (Directory (Folder (Some merges_bytes) (Some special_bytes))).
Proof.
  intros Hnode Hm Hs. unfold save. rewrite Hm, Hs.
  destruct (fs !! folder_name) as [[d|]|] eqn:Hlook; [|done|].
  - rewrite Hlook. eexists. split; [done|]. apply lookup_insert_eq.
  - rewrite lookup_insert_eq. eexists. split; [done|]. apply lookup_insert_eq.
Qed.

(** C2, as the code has it. The files hold the keys of the two
    dictionaries and nothing else, so what [load] restores is their order,
    with identifiers recomputed from line numbers. For a tokenizer whose
    merge identifiers are [256 + position] and whose special-token
    identifiers are [256 + merge count + position], whose special-token
    strings hold neither a line feed nor a carriage return, and for which
    [_build_vocab] succeeds, [save] into a folder (existing or not) followed
    by [load] into a fresh tokenizer returns normally with the same
    [merges] and [special_tokens], in the same order, and with the
    vocabulary [_build_vocab] gives for them. [encode] then agrees with the
    original on every input, and [decode] agrees on every input when the
    original's vocabulary was the built one. *)
Theorem save_load_roundtrip (folder_name : string) (self : tokenizer)
    (fs : gmap string node) (v : gmap Z (list Z)) :
  fs !! folder_name ≠ Some RegularFile →
  NoDup (od_keys (merges self)) →
  (merges self).*2 = seqZ 256 (Z.of_nat (length (merges self))) →
  NoDup (od_keys (special_tokens self)) →
  (special_tokens self).*2
  = seqZ (256 + Z.of_nat (length (merges self)))
      (Z.of_nat (length (special_tokens self))) →
  Forall (fun s => (newline ∉ s) ∧ (carriage_return ∉ s))
    (od_keys (special_tokens self)) →
  _build_vocab self = Ok v →
  ∃ fs' st',
    save folder_name self fs = (Ok (), fs')
    ∧ load folder_name init fs' = (Ok (), st')
    ∧ merges st' = merges self
    ∧ special_tokens st' = special_tokens self
    ∧ vocab st' = v
    ∧ (∀ input, encode st' input = encode self input)
    ∧ (vocab self = v → ∀ ids, decode st' ids = decode self ids).
Proof.
  intros Hnode Hmkeys Hmids Hskeys Hsids Hclean Hvocab.
  destruct (saved_merges_rows (od_keys (merges self)))
    as (mb & Hmw & mtext & Hmr & Hmrows).
  destruct (saved_special_rows (od_keys (special_tokens self)))
    as (sb & Hsw & stext & Hsr & Hsrows);
    [by eapply build_vocab_encodable | done |].
  destruct (save_Ok folder_name self fs mb sb Hnode Hmw Hsw)
    as (fs' & Hsave & Hlook).
  exists fs', (Tokenizer (merges self) (special_tokens self) v).
  split; [done|]. split; [|by repeat split; cbn; intros; subst].
  unfold load. rewrite Hlook. cbn [tokenizer_merges_vm tokenizer_special_vm].
  rewrite Hmr, Hmrows, load_merges_saved; [|done|].
  2:{ intros k _. apply not_elem_of_nil. }
  assert (zip (od_keys (merges self))
            (seqZ (0 + 256) (Z.of_nat (length (od_keys (merges self)))))
          = merges self) as ->.
  { unfold od_keys at 2. rewrite length_fmap. by apply positional_zip. }
  cbn [merges init app].
  rewrite Hsr, Hsrows, load_special_saved; [|done|].
  2:{ intros k _. apply not_elem_of_nil. }
  assert (zip (od_keys (special_tokens self))
            (seqZ (0 + 256 + Z.of_nat (length (merges self)))
               (Z.of_nat (length (od_keys (special_tokens self)))))
          = special_tokens self) as ->.
  { unfold od_keys at 2. rewrite length_fmap. by apply positional_zip. }
  cbn [special_tokens init app].
  assert (_build_vocab
            (Tokenizer (merges self) (special_tokens self) (vocab init))
          = Ok v) as -> by done.
  done.
Qed.

Lemma save_load_roundtrip_witness :
  (∅ : gmap string node) !! "tok" ≠ Some RegularFile
  ∧ NoDup (od_keys (merges scenario_with_special))
  ∧ (merges scenario_with_special).*2
    = seqZ 256 (Z.of_nat (length (merges scenario_with_special)))
  ∧ NoDup (od_keys (special_tokens scenario_with_special))
  ∧ (special_tokens scenario_with_special).*2
    = seqZ (256 + Z.of_nat (length (merges scenario_with_special)))
        (Z.of_nat (length (special_tokens scenario_with_special)))
  ∧ Forall (fun s => (newline ∉ s) ∧ (carriage_return ∉ s))
      (od_keys (special_tokens scenario_with_special))
  ∧ _build_vocab scenario_with_special = Ok scenario_vocab
  ∧ ∃ fs' st',
      save "tok" scenario_with_special ∅ = (Ok (), fs')
      ∧ load "tok" init fs' = (Ok (), st')
      ∧ merges st' = merges scenario_with_special
      ∧ special_tokens st' = special_tokens scenario_with_special
      ∧ vocab st' = scenario_vocab
      ∧ (∀ input, encode st' input = encode scenario_with_special input)
      ∧ (vocab scenario_with_special = scenario_vocab →
         ∀ ids, decode st' ids = decode scenario_with_special ids).
Proof.
  assert ((∅ : gmap string node) !! "tok" ≠ Some RegularFile) as H1
    by (vm_compute; discriminate).
  assert (NoDup (od_keys (merges scenario_with_special))) as H2
    by (apply (bool_decide_unpack _); vm_compute; exact I).
  assert ((merges scenario_with_special).*2
          = seqZ 256 (Z.of_nat (length (merges scenario_with_special)))) as H3
    by (vm_compute; reflexivity).
  assert (NoDup (od_keys (special_tokens scenario_with_special))) as H4
    by (apply (bool_decide_unpack _); vm_compute; exact I).
  assert ((special_tokens scenario_with_special).*2
          = seqZ (256 + Z.of_nat (length (merges scenario_with_special)))
              (Z.of_nat (length (special_tokens scenario_with_special))))
    as H5 by (vm_compute; reflexivity).
  assert (Forall (fun s => (newline ∉ s) ∧ (carriage_return ∉ s))
            (od_keys (special_tokens scenario_with_special))) as H6
    by (apply (bool_decide_unpack _); vm_compute; exact I).
  assert (_build_vocab scenario_with_special = Ok scenario_vocab) as H7
    by (vm_compute; reflexivity).
  repeat (split; [assumption|]).
  exact (save_load_roundtrip "tok" scenario_with_special ∅ scenario_vocab
           H1 H2 H3 H4 H5 H6 H7).
Defined.

(** C2 as stated fails in three ways. [load] numbers merges by line, so a
    dictionary whose identifiers are not positional (here two rules that
    both carry 256, reached by loading into a trained tokenizer) comes back
    renumbered. [add_special_token] leaves the vocabulary stale, so the
    original cannot decode the special token that the reloaded tokenizer
    decodes. A carriage return in a special token is read back as a line
    break. *)
Lemma save_load_not_identity :
  (merges loaded_twice = [((97, 98), 256); ((120, 121), 256)]
   ∧ ∃ fs', save "c" loaded_twice ∅ = (Ok (), fs')
            ∧ merges (load "c" init fs').2
              = [((97, 98), 256); ((120, 121), 257)])
  ∧ (∃ fs', save "c" scenario_with_special ∅ = (Ok (), fs')
            ∧ (load "c" init fs').1 = Ok ()
            ∧ decode (load "c" init fs').2 [259] = Ok [60; 115; 62]
            ∧ decode scenario_with_special [259] = Raise KeyError)
  ∧ (∃ fs', save "c" (Tokenizer [((97, 97), 256)] [([13], 257)] byte_vocab) ∅
            = (Ok (), fs')
            ∧ (load "c" init fs').1 = Ok ()
            ∧ special_tokens (load "c" init fs').2 = [([], 257)]).
Proof.
  split; [|split].
  - split; [vm_compute; reflexivity|].
    eexists. split; [vm_compute; reflexivity|]. vm_compute. reflexivity.
  - eexists. split; [vm_compute; reflexivity|].
    repeat split; vm_compute; reflexivity.
  - eexists. split; [vm_compute; reflexivity|].
    repeat split; vm_compute; reflexivity.
Qed.

(** ** What [load] does to a tokenizer that already has entries *)

Section odict_update.
Context {K V : Type} `{EqDecision K}.
Implicit Types (d : list (K * V)) (k : K) (v : V).

Lemma od_set_get k v d k' :
  od_get k' (od_set k v d) = if decide (k' = k) then Some v else od_get k' d.
Proof.
  induction d as [|[k0 v0] d IH]; cbn [od_set od_get].
  - by destruct (decide (k' = k)).
  - destruct (decide (k = k0)) as [->|Hne]; cbn [od_get].
    + by destruct (decide (k' = k0)).
    + rewrite IH. destruct (decide (k' = k0)) as [->|]; [|done].
      by destruct (decide (k0 = k)).
Qed.

Lemma od_set_prefix k v d : od_keys d `prefix_of` od_keys (od_set k v d).
Proof.
  unfold od_keys. induction d as [|[k0 v0] d IH]; cbn [od_set].
  - apply prefix_nil.
  - destruct (decide (k = k0)); rewrite !fmap_cons; cbn [fst].
    + done.
    + by apply prefix_cons.
Qed.
End odict_update.

Lemma load_merges_prefix rows i merges r merges' :
  load_merges rows i merges = (r, merges') →
  od_keys merges `prefix_of` od_keys merges'.
Proof.
  revert i merges. induction rows as [|row rows IH]; intros i merges;
    cbn [load_merges].
  - by intros [= _ <-].
  - destruct (parse_row row) as [key|e]; [|by intros [= _ <-]].
    intros Hrest%IH. etrans; [apply od_set_prefix | exact Hrest].
Qed.

Lemma load_merges_Ok rows i merges merges' :
  load_merges rows i merges = (Ok (), merges') →
  ∃ keys, parse_rows rows = Ok keys
          ∧ (∀ k, k ∈ od_keys merges' ↔ k ∈ od_keys merges ∨ k ∈ keys)
          ∧ (∀ k, k ∉ keys → od_get k merges' = od_get k merges).
Proof.
  revert i merges. induction rows as [|row rows IH]; intros i merges;
    cbn [load_merges parse_rows].
  - intros [= <-]. exists []. split; [done|]. split; [set_solver | done].
  - destruct (parse_row row) as [key|e]; [|done].
    intros (keys & -> & Hkeys & Hget)%IH. exists (key :: keys).
    split; [done|]. split.
    + intros k. rewrite Hkeys, od_set_keys. set_solver.
    + intros k [Hk Hks]%not_elem_of_cons. rewrite Hget by done.
      rewrite od_set_get. by destruct (decide (k = key)).
Qed.

Lemma load_special_prefix rows i merges_length special :
  od_keys special
  `prefix_of` od_keys (load_special rows i merges_length special).
Proof.
  revert i special. induction rows as [|row rows IH]; intros i special;
    cbn [load_special]; [done|].
  etrans; [apply od_set_prefix | apply IH].
Qed.

Lemma load_special_entries rows i merges_length special :
  (∀ s, s ∈ od_keys (load_special rows i merges_length special)
        ↔ s ∈ od_keys special ∨ s ∈ rows)
  ∧ (∀ s, s ∉ rows →
          od_get s (load_special rows i merges_length special)
          = od_get s special).
Proof.
  revert i special. induction rows as [|row rows IH]; intros i special;
    cbn [load_special].
  - split; [set_solver | done].
  - destruct (IH (i + 1) (od_set row (i + 256 + merges_length) special))
      as [Hkeys Hget]. split.
    + intros s. rewrite Hkeys, od_set_keys. set_solver.
    + intros s [Hs Hrows]%not_elem_of_cons. rewrite Hget by done.
      rewrite od_set_get. by destruct (decide (s = row)).
Qed.

Lemma load_Ok folder_name self fs st :
  load folder_name self fs = (Ok (), st) →
  ∃ d mtext stext,
    fs !! folder_name = Some (Directory d)
    ∧ read_text (tokenizer_merges_vm d) = Ok mtext
    ∧ load_merges (file_rows mtext) 0 (merges self) = (Ok (), merges st)
    ∧ read_text (tokenizer_special_vm d) = Ok stext
    ∧ special_tokens st
      = load_special (file_rows stext) 0 (Z.of_nat (length (merges st)))
          (special_tokens self)
    ∧ _build_vocab st = Ok (vocab st).
Proof.
  unfold load. destruct (fs !! folder_name) as [[d|]|] eqn:Hd; [|done..].
  destruct (read_text (tokenizer_merges_vm d)) as [mtext|] eqn:Hmr; [|done].
  destruct (load_merges _ 0 (merges self)) as [[[]|] merges'] eqn:Hm; [|done].
  destruct (read_text (tokenizer_special_vm d)) as [stext|] eqn:Hsr; [|done].
  destruct (_build_vocab _) as [v|] eqn:Hv; [|done].
  intros [= <-]. exists d, mtext, stext. cbn [merges special_tokens vocab].
  repeat (split; [done|]). exact Hv.
Qed.

(** C10. A [load] that returns normally removes nothing: the keys that
    [merges] and [special_tokens] had before are still there, first and in
    their old order, followed by the new keys of the files; an entry keeps
    its identifier unless its key is named by a row of the file. *)
Theorem load_keeps_existing_entries (folder_name : string)
    (self st : tokenizer) (fs : gmap string node) :
  load folder_name self fs = (Ok (), st) →
  od_keys (merges self) `prefix_of` od_keys (merges st)
  ∧ od_keys (special_tokens self) `prefix_of` od_keys (special_tokens st)
  ∧ ∃ d mtext stext keys,
      fs !! folder_name = Some (Directory d)
      ∧ read_text (tokenizer_merges_vm d) = Ok mtext
      ∧ parse_rows (file_rows mtext) = Ok keys
      ∧ read_text (tokenizer_special_vm d) = Ok stext
      ∧ (∀ k, k ∈ od_keys (merges st) ↔ k ∈ od_keys (merges self) ∨ k ∈ keys)
      ∧ (∀ k, k ∉ keys → od_get k (merges st) = od_get k (merges self))
      ∧ (∀ s, s ∈ od_keys (special_tokens st)
              ↔ s ∈ od_keys (special_tokens self) ∨ s ∈ file_rows stext)
      ∧ (∀ s, s ∉ file_rows stext →
              od_get s (special_tokens st) = od_get s (special_tokens self)).
Proof.
  intros (d & mtext & stext & Hd & Hmr & Hm & Hsr & Hs & _)%load_Ok.
  split; [by eapply load_merges_prefix|].
  split; [rewrite Hs; apply load_special_prefix|].
  destruct (load_merges_Ok _ _ _ _ Hm) as (keys & Hkeys & Hin & Hget).
  exists d, mtext, stext, keys. repeat (split; [done|]).
  rewrite Hs. apply load_special_entries.
Qed.

(** Loading the files of the ["xy"] tokenizer into the ["ab"] tokenizer
    keeps the rule of ["ab"] and adds the rule of ["xy"] after it. *)
Lemma load_keeps_existing_entries_witness :
  load "xy" (train [97; 98] 257 init).2
    (save "xy" (train [120; 121] 257 init).2 ∅).2
  = (Ok (), loaded_twice)
  ∧ od_keys (merges (train [97; 98] 257 init).2)
    `prefix_of` od_keys (merges loaded_twice)
  ∧ merges (train [97; 98] 257 init).2 = [((97, 98), 256)]
  ∧ merges loaded_twice = [((97, 98), 256); ((120, 121), 256)].
Proof.
  assert (load "xy" (train [97; 98] 257 init).2
            (save "xy" (train [120; 121] 257 init).2 ∅).2
          = (Ok (), loaded_twice)) as Hload by (vm_compute; reflexivity).
  split; [exact Hload|].
  split; [exact (proj1 (load_keeps_existing_entries _ _ _ _ Hload))|].
  split; vm_compute; reflexivity.
Defined.

(** ** Failure of [load] *)








(** A row written with Arabic-Indic digits is read; a row with the
    separator U+001C before a number is malformed. *)
Example load_rows_of_other_scripts :
  merges (load "tok" init
            {[ "tok" := Directory
                          (Folder (Some [0xD9; 0xA9; 0xD9; 0xA7; 32; 57; 55; 10])
                             (Some [])) ]}).2
  = [((97, 97), 256)]
  ∧ (load "tok" init
       {[ "tok" := Directory (Folder (Some [57; 55; 32; 28; 57; 55; 10])
                                (Some [])) ]}).1
    = Raise ValueError.
Proof. split; vm_compute; reflexivity. Qed.


(** * Further properties of the code *)

(** ** A merge pass on a sequence without the pair *)

Lemma replace_pairs_absent a b index tokens :
  (a, b) ∉ adjacent_pairs tokens → replace_pairs_spec a b index tokens = tokens.
Proof.
  induction tokens as [| t | t t' r IH1 IH2] using list_pair_ind;
    [done | done |].
  rewrite adjacent_pairs_cons. intros [Hne Hrest]%not_elem_of_cons.
  rewrite replace_pairs_unfold. cbn [tail].
  destruct (Z.eqb_spec t a) as [->|]; [destruct (Z.eqb_spec t' b) as [->|]|];
    cbn [andb]; [done | by rewrite IH2 | by rewrite IH2].
Qed.

(** [_merge_bytepairs] returns its input unchanged exactly when the pair
    does not occur in it, and a second pass with the same rule changes
    nothing when the replacement identifier is neither [a] nor [b]. *)
Theorem merge_bytepairs_fixpoint (tokens : list Z) (a b index : Z) :
  (_merge_bytepairs tokens (a, b) index = tokens
   ↔ (a, b) ∉ adjacent_pairs tokens)
  ∧ (index ≠ a → index ≠ b →
       _merge_bytepairs (_merge_bytepairs tokens (a, b) index) (a, b) index
       = _merge_bytepairs tokens (a, b) index).
Proof.
  rewrite !merge_bytepairs_spec. split; [split|].
  - intros Heq Hin. apply (replace_pairs_shorter a b index) in Hin.
    rewrite Heq in Hin. lia.
  - apply replace_pairs_absent.
  - intros Ha Hb. apply replace_pairs_absent. by apply replace_pairs_consumed.
Qed.

Lemma merge_bytepairs_fixpoint_witness :
  256 ≠ 97 ∧ 256 ≠ 98
  ∧ _merge_bytepairs (_merge_bytepairs [97; 98; 97; 98; 98] (97, 98) 256)
      (97, 98) 256
    = _merge_bytepairs [97; 98; 97; 98; 98] (97, 98) 256.
Proof.
  split; [lia|]. split; [lia|].
  apply (merge_bytepairs_fixpoint [97; 98; 97; 98; 98] 97 98 256); lia.
Defined.

(** ** The tokens [encode] returns *)

Lemma apply_merges_length rules tokens :
  (length (apply_merges rules tokens) ≤ length tokens)%nat.
Proof.
  revert tokens. induction rules as [|[[a b] index] rules IH]; intros tokens;
    [done|].
  cbn [apply_merges fold_left fst snd].
  change (fold_left _ rules ?t) with (apply_merges rules t).
  etrans; [apply IH|]. rewrite merge_bytepairs_spec.
  apply replace_pairs_length.
Qed.

Lemma apply_merges_elem rules tokens t :
  t ∈ apply_merges rules tokens → t ∈ tokens ∨ t ∈ rules.*2.
Proof.
  revert tokens. induction rules as [|[[a b] index] rules IH]; intros tokens;
    [by left|].
  cbn [apply_merges fold_left fst snd].
  change (fold_left _ rules ?t) with (apply_merges rules t).
  intros [Hin|Hin]%IH.
  - rewrite merge_bytepairs_spec in Hin.
    apply replace_pairs_elem in Hin as [->|Hin]; [|by left].
    right. rewrite fmap_cons. left.
  - right. rewrite fmap_cons. by right.
Qed.

(** For a text that can be encoded, [encode] returns normally; it returns
    no more tokens than the text has UTF-8 bytes, and each token is one of
    those bytes or the identifier of a recorded merge rule. *)
Theorem encode_tokens (self : tokenizer) (input bs : list Z) :
  str_encode input = Ok bs →
  ∃ tokens,
    encode self input = Ok tokens
    ∧ (length tokens ≤ length bs)%nat
    ∧ Forall (fun t => t ∈ bs ∨ t ∈ (merges self).*2) tokens.
Proof.
  intros Hbs. exists (apply_merges (merges self) bs).
  split; [by apply encode_Ok|]. split; [apply apply_merges_length|].
  apply Forall_forall. intros t. apply apply_merges_elem.
Qed.

Lemma encode_tokens_witness :
  str_encode scenario_corpus = Ok scenario_corpus
  ∧ ∃ tokens,
      encode trained_scenario scenario_corpus = Ok tokens
      ∧ (length tokens ≤ length scenario_corpus)%nat
      ∧ Forall (fun t => t ∈ scenario_corpus
                         ∨ t ∈ (merges trained_scenario).*2) tokens.
Proof.
  split; [reflexivity|].
  apply (encode_tokens trained_scenario scenario_corpus scenario_corpus).
  reflexivity.
Defined.


(** ** What [_count_combinations] returns *)

Lemma count_of_nonneg p pairs : 0 ≤ count_of p pairs.
Proof.
  induction pairs as [|q pairs IH]; cbn [count_of]; [done|].
  destruct (decide (q = p)); lia.
Qed.

Lemma count_of_pos p pairs : p ∈ pairs ↔ 0 < count_of p pairs.
Proof.
  induction pairs as [|q pairs IH]; cbn [count_of].
  - split; [by intros ?%elem_of_nil | lia].
  - pose proof (count_of_nonneg p pairs). rewrite elem_of_cons, IH.
    destruct (decide (q = p)) as [->|]; split; try lia; auto.
    intros [->|]; [done | lia].
Qed.

Section odict_lookup.
Context {K V : Type} `{EqDecision K}.
Implicit Types (d : list (K * V)) (k : K) (v : V).

Lemma od_get_elem k v d :
  NoDup (od_keys d) → (k, v) ∈ d → od_get k d = Some v.
Proof.
  unfold od_keys. induction d as [|[k0 v0] d IH]; [by intros _ ?%elem_of_nil|].
  rewrite fmap_cons. cbn [fst od_get].
  intros [Hk0 Hd]%NoDup_cons [[= -> ->]|Hin]%elem_of_cons.
  - by destruct (decide (k0 = k0)).
  - destruct (decide (k = k0)) as [->|]; [|by apply IH].
    destruct Hk0. apply list_elem_of_fmap. by exists (k0, v).
Qed.

Lemma od_get_Permutation k d d' :
  NoDup (od_keys d) → d ≡ₚ d' → od_get k d' = od_get k d.
Proof.
  intros Hd Hperm.
  assert (NoDup (od_keys d')) as Hd'.
  { unfold od_keys in *. by rewrite <- Hperm. }
  destruct (od_get k d) as [v|] eqn:Hget.
  - apply od_get_elem; [done|]. rewrite <- Hperm. by apply od_get_Some_elem.
  - destruct (od_get k d') as [v|] eqn:Hget'; [|done].
    apply od_get_Some_elem in Hget'. rewrite <- Hperm in Hget'.
    apply (od_get_elem _ _ _ Hd) in Hget'. congruence.
Qed.

Lemma od_set_nodup k v d : NoDup (od_keys d) → NoDup (od_keys (od_set k v d)).
Proof.
  intros Hd. destruct (decide (k ∈ od_keys d)) as [Hin|Hout].
  - assert (od_keys (od_set k v d) = od_keys d) as ->; [|done].
    clear Hd. unfold od_keys in *.
    induction d as [|[k0 v0] d IH]; [by apply elem_of_nil in Hin|].
    cbn [od_set]. destruct (decide (k = k0)) as [->|Hne]; [done|].
    rewrite !fmap_cons. cbn [fst]. f_equal. apply IH.
    rewrite fmap_cons in Hin. cbn in Hin. set_solver.
  - rewrite od_set_fresh by done. unfold od_keys in *.
    rewrite fmap_app. apply NoDup_app. split; [done|].
    split; [|apply NoDup_singleton]. cbn. set_solver.
Qed.

Lemma py_dict_id (items : list (K * V)) :
  NoDup (od_keys items) → py_dict items = items.
Proof.
  unfold py_dict.
  assert (∀ acc, NoDup (od_keys (acc ++ items)) →
                 fold_left (fun d kv => od_set kv.1 kv.2 d) items acc
                 = acc ++ items) as Hgen; [|apply (Hgen [])].
  induction items as [|[k v] items IH]; intros acc Hnodup; cbn [fold_left].
  - by rewrite app_nil_r.
  - cbn [fst snd]. rewrite od_set_fresh.
    + rewrite IH; rewrite <- app_assoc; done.
    + unfold od_keys in *. rewrite fmap_app, fmap_cons in Hnodup.
      apply NoDup_app in Hnodup as (_ & Hdisj & _). intros Hin.
      apply (Hdisj _ Hin). left.
Qed.
End odict_lookup.

Lemma count_pairs_get pairs counts p :
  NoDup (od_keys counts) →
  NoDup (od_keys (fold_left count_pair pairs counts))
  ∧ od_get p (fold_left count_pair pairs counts)
    = if decide (p ∈ od_keys counts ∨ p ∈ pairs)
      then Some (default 0 (od_get p counts) + count_of p pairs)
      else None.
Proof.
  revert counts. induction pairs as [|q pairs IH]; intros counts Hnodup;
    cbn [fold_left count_of].
  - split; [done|]. destruct (od_get p counts) as [c|] eqn:Hget.
    + rewrite decide_True; [cbn; f_equal; lia|].
      left. destruct (decide (p ∈ od_keys counts)) as [|Hout]; [done|].
      apply od_get_None in Hout. congruence.
    + rewrite decide_False; [done|]. apply od_get_None in Hget.
      intros [|?%elem_of_nil]; done.
  - destruct (IH (count_pair counts q) (od_set_nodup _ _ _ Hnodup))
      as [Hnd Hget].
    split; [done|]. rewrite Hget. unfold count_pair.
    rewrite od_set_get.
    assert (p ∈ od_keys (od_set q (default 0 (od_get q counts) + 1) counts)
              ∨ p ∈ pairs ↔ p ∈ od_keys counts ∨ p ∈ q :: pairs) as Hiff.
    { rewrite od_set_keys, elem_of_cons. tauto. }
    destruct (decide (p ∈ od_keys counts ∨ p ∈ q :: pairs)) as [Hyes|Hno].
    + rewrite decide_True by (by apply Hiff). f_equal.
      destruct (decide (p = q)) as [->|Hne].
      * rewrite decide_True by done. cbn. lia.
      * rewrite decide_False by done. lia.
    + rewrite decide_False; [done|]. by rewrite Hiff.
Qed.


Lemma insert_sorted_Permutation {A} (key : A → Z) x l :
  insert_sorted key x l ≡ₚ x :: l.
Proof.
  induction l as [|y l IH]; cbn [insert_sorted]; [done|].
  destruct (key x <=? key y); [done|]. rewrite IH. apply Permutation_swap.
Qed.

Lemma py_sorted_Permutation {A} (key : A → Z) l : py_sorted key l ≡ₚ l.
Proof.
  unfold py_sorted. induction l as [|x l IH]; cbn [foldr]; [done|].
  by rewrite insert_sorted_Permutation, IH.
Qed.

Lemma insert_sorted_ordered {A} (key : A → Z) x l :
  StronglySorted (fun y z => key y ≤ key z) l →
  StronglySorted (fun y z => key y ≤ key z) (insert_sorted key x l).
Proof.
  induction 1 as [|y l Hl IH Hy]; cbn [insert_sorted].
  - repeat constructor.
  - destruct (Z.leb_spec (key x) (key y)).
    + constructor; [by constructor|]. constructor; [done|].
      eapply Forall_impl; [exact Hy|]. cbn. intros; lia.
    + constructor; [done|]. rewrite insert_sorted_Permutation.
      constructor; [lia | done].
Qed.

Lemma py_sorted_ordered {A} (key : A → Z) l :
  StronglySorted (fun y z => key y ≤ key z) (py_sorted key l).
Proof.
  unfold py_sorted. induction l as [|x l IH]; cbn [foldr]; [constructor|].
  by apply insert_sorted_ordered.
Qed.

(** The first element of a stable sort is the first minimum of the
    input. *)
Lemma py_sorted_head {A} (key : A → Z) l x rest :
  py_sorted key l = x :: rest →
  ∃ pre post, l = pre ++ x :: post
              ∧ Forall (fun y => key x < key y) pre
              ∧ Forall (fun y => key x ≤ key y) post.
Proof.
  unfold py_sorted. revert x rest.
  induction l as [|a l IH]; intros x rest; cbn [foldr]; [done|].
  destruct (foldr (insert_sorted key) [] l) as [|y r] eqn:Hsorted.
  - cbn. intros [= <- <-]. exists [], l. split; [done|].
    assert (l = []) as ->; [|by split; constructor].
    pose proof (py_sorted_Permutation key l) as Hp. unfold py_sorted in Hp.
    rewrite Hsorted in Hp. by apply Permutation_nil in Hp.
  - destruct (IH _ _ eq_refl) as (pre & post & -> & Hpre & Hpost).
    cbn [insert_sorted]. destruct (Z.leb_spec (key a) (key y)).
    + intros [= <- <-]. exists [], (pre ++ y :: post).
      split; [done|]. split; [constructor|].
      apply Forall_app_2; [|apply Forall_cons_2].
      * eapply Forall_impl; [exact Hpre|]. cbn. intros; lia.
      * done.
      * eapply Forall_impl; [exact Hpost|]. cbn. intros; lia.
    + intros [= <- <-]. exists (a :: pre), post.
      split; [done|]. split; [|done]. by constructor.
Qed.

(** [max] returns the first element whose key is maximal. *)
Lemma py_max_fold {A} (key : A → Z) l best m :
  m = fold_left (fun best y => if key best <? key y then y else best) l best →
  (m = best ∧ Forall (fun y => key y ≤ key best) l)
  ∨ ∃ pre post, l = pre ++ m :: post ∧ key best < key m
                ∧ Forall (fun y => key y < key m) pre
                ∧ Forall (fun y => key y ≤ key m) post.
Proof.
  revert best. induction l as [|y l IH]; intros best; cbn [fold_left].
  - intros ->. left. split; [done | constructor].
  - destruct (Z.ltb_spec (key best) (key y)) as [Hlt|Hge]; intros Hm.
    + right.
      destruct (IH y Hm) as [[Hy Hall]|(pre & post & Hl & Hy & Hpre & Hpost)].
      * exists [], l. rewrite Hy. split; [done|]. split; [done|].
        split; [constructor | done].
      * exists (y :: pre), post. split; [by rewrite Hl at 1|]. split; [lia|].
        split; [by constructor | done].
    + destruct (IH best Hm)
        as [[Hbest Hall]|(pre & post & Hl & Hbest & Hpre & Hpost)].
      * left. split; [done|]. by constructor.
      * right. exists (y :: pre), post. split; [by rewrite Hl at 1|].
        split; [done|]. split; [constructor; [lia | done] | done].
Qed.

Lemma py_max_first {A} (key : A → Z) l x :
  py_max key l = Ok x →
  ∃ pre post, l = pre ++ x :: post
              ∧ Forall (fun y => key y < key x) pre
              ∧ Forall (fun y => key y ≤ key x) post.
Proof.
  destruct l as [|x0 l]; [done|]. cbn [py_max]. intros [= Hx].
  destruct (py_max_fold key l x0 x (eq_sym Hx))
    as [[-> Hall]|(pre & post & Heq & Hbest & Hpre & Hpost)].
  - exists [], l. split; [done|]. split; [constructor | done].
  - exists (x0 :: pre), post. split; [by rewrite Heq at 1|].
    split; [by constructor | done].
Qed.


Lemma count_combinations_sorted tokens :
  NoDup (od_keys (fold_left count_pair (adjacent_pairs tokens) []))
  ∧ _count_combinations tokens
    = py_sorted (fun x => - x.2)
        (fold_left count_pair (adjacent_pairs tokens) []).
Proof.
  destruct (count_pairs_get (adjacent_pairs tokens) [] (0, 0)) as [Hnodup _];
    [constructor|].
  split; [done|]. unfold _count_combinations. apply py_dict_id.
  unfold od_keys in *. by rewrite py_sorted_Permutation.
Qed.

Lemma StronglySorted_weaken {A} (R R' : A → A → Prop) l :
  (∀ x y, R x y → R' x y) → StronglySorted R l → StronglySorted R' l.
Proof.
  intros HR. induction 1 as [|x l _ IH Hx]; constructor; [done|].
  eapply Forall_impl; [exact Hx | apply HR].
Qed.

(** [_count_combinations] maps every adjacent pair of the sequence to the
    number of its occurrences, overlapping ones included, and holds no
    other key; its entries are in the order of descending counts. *)
Theorem count_combinations_correct (tokens : list Z) :
  NoDup (od_keys (_count_combinations tokens))
  ∧ (∀ p, od_get p (_count_combinations tokens)
          = if decide (p ∈ adjacent_pairs tokens)
            then Some (count_of p (adjacent_pairs tokens))
            else None)
  ∧ StronglySorted (fun x y => y.2 ≤ x.2) (_count_combinations tokens)
  ∧ (_count_combinations tokens = [] ↔ (length tokens < 2)%nat).
Proof.
  destruct (count_combinations_sorted tokens) as [Hnodup Heq].
  split; [|split; [|split]].
  - rewrite Heq. unfold od_keys in *. by rewrite py_sorted_Permutation.
  - intros p. rewrite Heq.
    rewrite (od_get_Permutation p _ (py_sorted _ _) Hnodup)
      by (symmetry; apply py_sorted_Permutation).
    destruct (count_pairs_get (adjacent_pairs tokens) [] p) as [_ ->];
      [constructor|].
    destruct (decide (p ∈ adjacent_pairs tokens)) as [Hin|Hout].
    + rewrite decide_True by (by right). done.
    + rewrite decide_False; [done|]. intros [?%elem_of_nil|]; done.
  - rewrite Heq.
    eapply StronglySorted_weaken; [|apply py_sorted_ordered].
    cbn. intros; lia.
  - rewrite <- adjacent_pairs_short. split.
    + intros Hnil.
      destruct (adjacent_pairs tokens) as [|p ps] eqn:Hpairs; [done|].
      assert (p ∈ od_keys (_count_combinations tokens)) as Hin.
      { apply count_combinations_keys. rewrite Hpairs. left. }
      rewrite Hnil in Hin. by apply elem_of_nil in Hin.
    + intros Hnil. unfold _count_combinations. by rewrite Hnil.
Qed.

Lemma count_pairs_prefix pairs counts :
  od_keys counts `prefix_of` od_keys (fold_left count_pair pairs counts).
Proof.
  revert counts. induction pairs as [|q pairs IH]; intros counts;
    cbn [fold_left]; [done|].
  etrans; [|apply IH]. apply od_set_prefix.
Qed.

Lemma prefix_before {A} (l a b : list A) (p : A) :
  l `prefix_of` a ++ p :: b → p ∉ l → l `prefix_of` a.
Proof.
  revert l. induction a as [|x a IH]; intros [|y l]; cbn [app].
  - done.
  - intros [k [= -> Hk]] Hp. destruct Hp. left.
  - intros _ _. apply prefix_nil.
  - intros [k [= -> Hk]] [Hne Hp]%not_elem_of_cons.
    apply prefix_cons, IH; [by exists k | done].
Qed.

(** The keys of the count table are in the order in which the pairs are
    first seen. *)
Lemma count_pairs_first_seen pairs counts a p b :
  od_keys (fold_left count_pair pairs counts) = a ++ p :: b →
  p ∉ od_keys counts →
  ∃ pre post, pairs = pre ++ p :: post ∧ (p ∉ pre) ∧ ∀ q, q ∈ pre → q ∈ a.
Proof.
  revert counts. induction pairs as [|x pairs IH]; intros counts;
    cbn [fold_left].
  - intros Heq Hp. destruct Hp. rewrite Heq. set_solver.
  - intros Heq Hp. destruct (decide (x = p)) as [->|Hne].
    + exists [], pairs. split; [done|].
      split; [apply not_elem_of_nil | by intros q ?%elem_of_nil].
    + assert (p ∉ od_keys (count_pair counts x)) as Hp'.
      { unfold count_pair. rewrite od_set_keys. intros [|]; done. }
      destruct (IH _ Heq Hp') as (pre & post & -> & Hpre & Hbefore).
      exists (x :: pre), post. split; [done|].
      split; [by apply not_elem_of_cons|].
      intros q [->|Hq]%elem_of_cons; [|by apply Hbefore].
      pose proof (count_pairs_prefix pre (count_pair counts x)) as Hprefix.
      assert (od_keys (count_pair counts x) `prefix_of` a) as [k ->].
      { eapply prefix_before; [|exact Hp']. rewrite <- Heq.
        apply count_pairs_prefix. }
      apply elem_of_app. left. unfold count_pair. apply od_set_keys. by left.
Qed.

(** The pair [train] selects has the greatest number of occurrences, and
    among the pairs with that number it is the one seen first in the
    sequence: every pair that occurs before its first occurrence has
    strictly fewer occurrences. *)
Theorem top_pair_first_most_frequent (tokens : list Z) (p : Z * Z) :
  top_pair_of (_count_combinations tokens) = Ok p →
  ∃ pre post,
    adjacent_pairs tokens = pre ++ p :: post
    ∧ (p ∉ pre)
    ∧ (∀ q, q ∈ pre →
         count_of q (adjacent_pairs tokens) < count_of p (adjacent_pairs tokens))
    ∧ (∀ q, count_of q (adjacent_pairs tokens)
            ≤ count_of p (adjacent_pairs tokens)).
Proof.
  destruct (count_combinations_sorted tokens) as [Hnodup Heq].
  set (pairs := adjacent_pairs tokens) in *.
  set (counts := fold_left count_pair pairs []) in *.
  assert (∀ q c, (q, c) ∈ counts → c = count_of q pairs ∧ q ∈ pairs) as Hval.
  { intros q c Hin. apply (od_get_elem _ _ _ Hnodup) in Hin.
    destruct (count_pairs_get pairs [] q) as [_ Hget]; [constructor|].
    fold counts in Hget. rewrite Hget in Hin.
    destruct (decide _) as [[?%elem_of_nil|Hq]|]; [done| |done].
    split; [|done]. cbn in Hin. injection Hin as <-. lia. }
  unfold top_pair_of. rewrite Heq.
  set (srt := py_sorted (fun x => - x.2) counts).
  assert (srt ≡ₚ counts) as Hperm by apply py_sorted_Permutation.
  assert (NoDup (od_keys srt)) as Hnodup'.
  { unfold od_keys in *. by rewrite Hperm. }
  intros (pre1 & post1 & Hkeys & Hpre1 & _)%py_max_first.
  destruct srt as [|[h ch] rest] eqn:Hsrt.
  { by destruct pre1. }
  unfold od_keys in Hkeys. rewrite fmap_cons in Hkeys. cbn [fst] in Hkeys.
  (* the first entry of the sorted table is the selected pair *)
  assert (p = h) as ->.
  { destruct pre1 as [|k1 pre1]; [by injection Hkeys as <-|].
    injection Hkeys as Hk Hrest. subst k1.
    apply Forall_cons in Hpre1 as [Hlt _]. exfalso.
    assert (p ∈ rest.*1) as Hp.
    { rewrite Hrest. set_solver. }
    apply list_elem_of_fmap in Hp as ([p' cp] & Hp' & Hin). cbn in Hp'.
    subst p'.
    rewrite (od_get_elem h ch ((h, ch) :: rest)) in Hlt by (done || left).
    rewrite (od_get_elem p cp ((h, ch) :: rest)) in Hlt by (done || by right).
    cbn in Hlt.
    pose proof (py_sorted_ordered (fun x : Z * Z * Z => - x.2) counts) as Hs.
    fold srt in Hs. rewrite Hsrt in Hs.
    apply StronglySorted_inv in Hs as [_ Hs].
    rewrite Forall_forall in Hs. apply Hs in Hin. cbn in Hin. lia. }
  destruct (py_sorted_head (fun x : Z * Z * Z => - x.2) counts (h, ch) rest)
    as (preC & postC & Hcounts & HpreC & HpostC); [done|].
  cbn [snd] in HpreC, HpostC.
  destruct (Hval h ch) as [Hch _]; [rewrite Hcounts; set_solver|].
  destruct (count_pairs_first_seen pairs [] (preC.*1) h (postC.*1))
    as (pre & post & Hpairs & Hfresh & Hbefore).
  { fold counts. unfold od_keys. rewrite Hcounts at 1.
    by rewrite fmap_app, fmap_cons. }
  { apply not_elem_of_nil. }
  exists pre, post. split; [done|]. split; [done|]. split.
  - intros q Hq%Hbefore. apply list_elem_of_fmap in Hq as ([q' c] & -> & Hin).
    cbn [fst]. rewrite Forall_forall in HpreC. pose proof (HpreC _ Hin) as Hlt.
    cbn in Hlt. destruct (Hval q' c) as [<- _]; [rewrite Hcounts; set_solver|].
    lia.
  - intros q. destruct (decide (q ∈ pairs)) as [Hq|Hq].
    + assert ((q, count_of q pairs) ∈ counts) as Hin.
      { apply od_get_Some_elem.
        destruct (count_pairs_get pairs [] q) as [_ Hget]; [constructor|].
        fold counts in Hget. by rewrite Hget, decide_True by (by right). }
      rewrite Hcounts, elem_of_app, elem_of_cons in Hin.
      rewrite Forall_forall in HpreC. rewrite Forall_forall in HpostC.
      destruct Hin as [Hin|[[= -> ->]|Hin]];
        [apply HpreC in Hin | | apply HpostC in Hin]; cbn in *; lia.
    + pose proof (count_of_nonneg h pairs).
      pose proof (count_of_nonneg q pairs).
      pose proof (proj2 (count_of_pos q pairs)). 
      destruct (decide (0 < count_of q pairs)); [tauto | lia].
Qed.


(** ** The rules [train] records *)

Lemma train_loop_distinct n i tokens merges tokens' merges' :
  train_inv i tokens merges → NoDup (od_keys merges) →
  train_loop n i tokens merges = (Ok tokens', merges') →
  NoDup (od_keys merges').
Proof.
  revert i tokens merges.
  induction n as [|n IH]; intros i tokens merges Hinv Hnodup;
    cbn [train_loop].
  - by intros [= _ <-].
  - destruct (top_pair_of (_count_combinations tokens)) as [[a b]|e] eqn:Htop;
      [|done].
    apply top_pair_of_Ok in Htop.
    destruct (train_inv_step _ _ _ _ _ Hinv Htop) as [Hfresh Hinv'].
    rewrite merge_bytepairs_spec, od_set_fresh by done.
    apply IH; [done|]. unfold od_keys in *. rewrite fmap_app.
    apply NoDup_app. split; [done|]. split; [|apply NoDup_singleton].
    cbn. intros k Hk ->%list_elem_of_singleton. done.
Qed.

(** When [train] returns normally, the identifiers of the recorded rules
    are 256, 257, ... in the order of the rules, no pair is recorded twice,
    and the two components of a rule are raw bytes or identifiers of
    earlier rules. *)
Theorem trained_merges_contiguous (corpus : list Z) (vocab_size : Z)
    (self st : tokenizer) :
  train corpus vocab_size self = (Ok (), st) →
  (merges st).*2 = seqZ 256 (Z.max 0 (vocab_size - 256))
  ∧ NoDup (od_keys (merges st))
  ∧ Forall (fun rule => 0 ≤ rule.1.1 < rule.2 ∧ 0 ≤ rule.1.2 < rule.2)
      (merges st).
Proof.
  intros (bs & tokens & Hbs & Hloop & _)%train_Ok.
  assert (train_inv 0 bs []) as Hstart
    by (by eapply train_inv_start, str_encode_bytes).
  pose proof (train_loop_distinct _ _ _ _ _ _ Hstart (NoDup_nil_2) Hloop).
  apply train_loop_replays in Hloop as [Hinv _]; [|done].
  split; [|split; [done | by destruct Hinv]].
  rewrite (inv_ids _ _ _ Hinv). f_equal. lia.
Qed.

(** ** The vocabulary of a trained tokenizer *)

(** After training a tokenizer that has no special tokens, every token
    that [encode] returns is below [vocab_size] (below 256 when nothing
    was learned) and has an entry in the vocabulary. *)
Theorem encode_within_vocab (corpus : list Z) (vocab_size : Z)
    (self st : tokenizer) (input bs : list Z) :
  special_tokens self = [] →
  train corpus vocab_size self = (Ok (), st) →
  str_encode input = Ok bs →
  ∃ tokens,
    encode st input = Ok tokens
    ∧ Forall (fun t => 0 ≤ t < Z.max 256 vocab_size
                       ∧ is_Some (vocab st !! t)) tokens.
Proof.
  intros Hspecial Htrain Hbs.
  destruct (trained_vocab _ _ _ _ Hspecial Htrain) as [Hbytes Hrules].
  destruct (train_Ok _ _ _ _ Htrain) as (cbs & ctokens & Hcbs & Hloop & _).
  apply train_loop_replays in Hloop as [Hinv _];
    [|by eapply train_inv_start, str_encode_bytes].
  exists (apply_merges (merges st) bs). split; [by apply encode_Ok|].
  apply Forall_forall. intros t [Hin|Hin]%apply_merges_elem.
  - pose proof (str_encode_bytes _ _ Hbs) as Hb. unfold is_bytes in Hb.
    rewrite Forall_forall in Hb. apply Hb in Hin. split; [lia|].
    exists [t]. eapply lookup_weaken; [|exact Hbytes].
    by apply byte_vocab_lookup.
  - split.
    + rewrite (inv_ids _ _ _ Hinv), elem_of_seqZ in Hin. lia.
    + apply list_elem_of_fmap in Hin as (rule & -> & Hrule).
      rewrite Forall_forall in Hrules.
      destruct (Hrules _ Hrule) as (x & y & _ & _ & Hidx). eauto.
Qed.

(** After training a tokenizer that has no special tokens, the first
    [add_special_token] stores the new string under the identifier
    [vocab_size], for which the vocabulary has no entry: decoding that
    identifier raises [KeyError]. *)
Theorem special_token_not_decodable (corpus : list Z) (vocab_size : Z)
    (self st : tokenizer) (special_str : list Z) :
  special_tokens self = [] →
  256 < vocab_size →
  train corpus vocab_size self = (Ok (), st) →
  special_tokens (add_special_token special_str st).1.2
  = [(special_str, vocab_size)]
  ∧ decode (add_special_token special_str st).1.2 [vocab_size]
    = Raise KeyError.
Proof.
  intros Hspecial Hsize Htrain.
  pose proof (train_merge_count _ _ _ _ Htrain) as Hcount.
  destruct (train_Ok _ _ _ _ Htrain)
    as (bs & tokens & Hbs & Hloop & Hsp & Hvocab).
  apply train_loop_replays in Hloop as [Hinv _];
    [|by eapply train_inv_start, str_encode_bytes].
  rewrite Hspecial in Hsp.
  assert (merges st ≠ []) as Hne.
  { intros Heq. rewrite Heq in Hcount. cbn in Hcount. lia. }
  rewrite add_special_token_new; [|done|rewrite Hsp; apply not_elem_of_nil].
  cbn [fst snd special_tokens]. rewrite Hsp. cbn [length app].
  split; [do 2 f_equal; lia|].
  unfold decode, bytes_join. cbn [vocab vocab_lookups].
  assert (vocab st !! vocab_size = None) as ->; [|done].
  unfold _build_vocab in Hvocab. cbn [merges special_tokens] in Hvocab.
  rewrite Hspecial in Hvocab.
  destruct (vocab_add_merges (merges st) byte_vocab) as [v|] eqn:Hadd;
    [|done]. cbn in Hvocab. injection Hvocab as <-.
  apply (vocab_add_merges_absent _ _ _ _ Hadd).
  - apply byte_vocab_lookup_None. lia.
  - rewrite (inv_ids _ _ _ Hinv), elem_of_seqZ. lia.
Qed.


(** ** The tokenizer a failed [train] leaves behind *)

Lemma train_loop_Raise n i tokens merges e merges' :
  train_loop n i tokens merges = (Raise e, merges') →
  ∃ k tokens', (k < n)%nat
               ∧ train_loop k i tokens merges = (Ok tokens', merges')
               ∧ (length tokens' < 2)%nat.
Proof.
  revert i tokens merges. induction n as [|n IH]; intros i tokens merges;
    cbn [train_loop]; [done|].
  destruct (top_pair_of (_count_combinations tokens)) as [p|e'] eqn:Htop.
  - intros (k & tokens' & Hk & Hloop & Hlen)%IH.
    exists (S k), tokens'. split; [lia|]. cbn [train_loop].
    by rewrite Htop.
  - intros [= _ <-]. exists 0%nat, tokens. split; [lia|]. split; [done|].
    apply adjacent_pairs_short. by apply top_pair_of_Raise in Htop as [_ ?].
Qed.

Lemma vocab_add_merges_raises items vocab e :
  vocab_add_merges items vocab = Raise e → e = KeyError.
Proof.
  revert vocab. induction items as [|[[p0 p1] idx] items IH]; intros vocab;
    cbn [vocab_add_merges]; [done|].
  destruct (vocab !! p0); [|by intros [= <-]].
  destruct (vocab !! p1); [|by intros [= <-]]. apply IH.
Qed.

Lemma vocab_add_special_raises items vocab e :
  vocab_add_special items vocab = Raise e → e = UnicodeEncodeError.
Proof.
  revert vocab. induction items as [|[s idx] items IH]; intros vocab;
    cbn [vocab_add_special]; [done|].
  unfold str_encode. destruct (forallb is_scalar s); [apply IH|].
  by intros [= <-].
Qed.

Lemma build_vocab_raises self e :
  _build_vocab self = Raise e → e = KeyError ∨ e = UnicodeEncodeError.
Proof.
  unfold _build_vocab.
  destruct (vocab_add_merges (merges self) byte_vocab) as [v|e'] eqn:Hadd;
    cbn.
  - intros ?%vocab_add_special_raises. by right.
  - intros [= <-]. left. by eapply vocab_add_merges_raises.
Qed.

(** A [train] that raises never touches the special tokens or the
    vocabulary. On a corpus that cannot be encoded it raises
    [UnicodeEncodeError] and changes nothing. When it raises [ValueError]
    it leaves in [self.merges] the rules of the [k] merges it completed
    before fewer than two tokens were left, with the vocabulary of before
    the call. *)
Theorem train_failure_state (corpus : list Z) (vocab_size : Z)
    (self st : tokenizer) (e : exn) :
  train corpus vocab_size self = (Raise e, st) →
  special_tokens st = special_tokens self
  ∧ vocab st = vocab self
  ∧ match str_encode corpus with
    | Raise _ => e = UnicodeEncodeError ∧ st = self
    | Ok bs =>
        e = ValueError →
        ∃ k tokens,
          (k < Z.to_nat (vocab_size - 256))%nat
          ∧ train_loop k 0 bs [] = (Ok tokens, merges st)
          ∧ (length tokens < 2)%nat
    end.
Proof.
  unfold train. unfold str_encode at 1 2.
  destruct (forallb is_scalar corpus); [|by intros [= <- <-]].
  destruct (train_loop _ 0 _ []) as [[tokens|e'] learned] eqn:Hloop.
  - destruct (_build_vocab _) as [v|e'] eqn:Hvocab; [done|].
    intros [= <- <-]. cbn [special_tokens vocab merges].
    split; [done|]. split; [done|]. intros ->.
    by apply build_vocab_raises in Hvocab as [|].
  - intros [= <- <-]. cbn [special_tokens vocab merges].
    split; [done|]. split; [done|]. intros _.
    by apply train_loop_Raise in Hloop.
Qed.

(** ["aaaa"] gives two merges; the third raises. *)
Lemma train_failure_state_witness :
  train [97; 97; 97; 97] 259 init
  = (Raise ValueError,
     Tokenizer [((97, 97), 256); ((256, 256), 257)] [] byte_vocab)
  ∧ vocab (Tokenizer [((97, 97), 256); ((256, 256), 257)] [] byte_vocab)
    = vocab init
  ∧ ∃ k tokens,
      (k < Z.to_nat (259 - 256))%nat
      ∧ train_loop k 0 [97; 97; 97; 97] []
        = (Ok tokens, [((97, 97), 256); ((256, 256), 257)])
      ∧ (length tokens < 2)%nat.
Proof.
  assert (train [97; 97; 97; 97] 259 init
          = (Raise ValueError,
             Tokenizer [((97, 97), 256); ((256, 256), 257)] [] byte_vocab))
    as Htrain by (vm_compute; reflexivity).
  destruct (train_failure_state _ _ _ _ _ Htrain) as (_ & Hvocab & Hloop).
  split; [exact Htrain|]. split; [exact Hvocab|]. exact (Hloop eq_refl).
Defined.

(** ** References between the rules in [_build_vocab] *)

Lemma vocab_add_merges_refs items vocab :
  (∃ vocab', vocab_add_merges items vocab = Ok vocab')
  ↔ refs_defined vocab items.
Proof.
  revert vocab. induction items as [|[[p0 p1] idx] items IH]; intros vocab.
  - split; [|by eexists]. intros _ pre rule post Heq. by destruct pre.
  - cbn [vocab_add_merges]. split.
    + intros [vocab' Hadd].
      destruct (vocab !! p0) as [x|] eqn:Hp0; [|done].
      destruct (vocab !! p1) as [y|] eqn:Hp1; [|done].
      assert (refs_defined (<[idx := x ++ y]> vocab) items) as Hrest
        by (apply IH; eauto).
      intros [|first pre] rule post Heq.
      * injection Heq as <- _. cbn. split; left; eauto.
      * injection Heq as <- ->. rewrite fmap_cons. cbn [snd].
        destruct (Hrest pre rule post eq_refl) as [H0 H1].
        rewrite !elem_of_cons.
        split; [destruct H0 as [H0|]; [|tauto]
               |destruct H1 as [H1|]; [|tauto]].
        -- rewrite lookup_insert in H0. destruct (decide (idx = rule.1.1));
             [right; left; done | by left].
        -- rewrite lookup_insert in H1. destruct (decide (idx = rule.1.2));
             [right; left; done | by left].
    + intros Hrefs.
      destruct (Hrefs [] ((p0, p1), idx) items eq_refl) as [H0 H1].
      cbn in H0, H1.
      destruct H0 as [[x Hp0]|?%elem_of_nil]; [|done].
      destruct H1 as [[y Hp1]|?%elem_of_nil]; [|done].
      rewrite Hp0, Hp1. apply IH. intros pre rule post ->.
      destruct (Hrefs ((p0, p1, idx) :: pre) rule post eq_refl) as [H0 H1].
      rewrite fmap_cons in H0, H1. cbn [snd] in H0, H1.
      rewrite !elem_of_cons in H0, H1.
      split.
      * destruct H0 as [[z Hz]|[->|]]; [|left|by right].
        -- left. rewrite lookup_insert. destruct (decide _); eauto.
        -- rewrite lookup_insert_eq. eauto.
      * destruct H1 as [[z Hz]|[->|]]; [|left|by right].
        -- left. rewrite lookup_insert. destruct (decide _); eauto.
        -- rewrite lookup_insert_eq. eauto.
Qed.

(** [_build_vocab] raises [KeyError] exactly when some merge rule refers
    to an identifier that is neither a raw byte nor the identifier of an
    earlier rule; the only other exception it can raise is
    [UnicodeEncodeError], for a special token. *)
Theorem build_vocab_undefined_reference (self : tokenizer) :
  (_build_vocab self = Raise KeyError
   ↔ ¬ ∀ pre rule post, merges self = pre ++ rule :: post →
         (0 ≤ rule.1.1 < 256 ∨ rule.1.1 ∈ pre.*2)
         ∧ (0 ≤ rule.1.2 < 256 ∨ rule.1.2 ∈ pre.*2))
  ∧ (∀ e, _build_vocab self = Raise e → e = KeyError ∨ e = UnicodeEncodeError).
Proof.
  split; [|apply build_vocab_raises].
  assert (∀ k, is_Some (byte_vocab !! k) ↔ 0 ≤ k < 256) as Hbyte.
  { intros k. split.
    - intros [x Hx]. destruct (decide (0 ≤ k < 256)) as [|Hout]; [done|].
      apply byte_vocab_lookup_None in Hout. congruence.
    - intros Hk. rewrite byte_vocab_lookup by done. eauto. }
  assert (refs_defined byte_vocab (merges self)
          ↔ ∀ pre rule post, merges self = pre ++ rule :: post →
              (0 ≤ rule.1.1 < 256 ∨ rule.1.1 ∈ pre.*2)
              ∧ (0 ≤ rule.1.2 < 256 ∨ rule.1.2 ∈ pre.*2)) as <-.
  { unfold refs_defined. split; intros H pre rule post Heq;
      specialize (H pre rule post Heq); by rewrite ?Hbyte, <- ?Hbyte in *. }
  rewrite <- vocab_add_merges_refs. unfold _build_vocab.
  destruct (vocab_add_merges (merges self) byte_vocab) as [v|e] eqn:Hadd;
    cbn.
  - split; [|intros []; eauto]. by intros ?%vocab_add_special_raises.
  - apply vocab_add_merges_raises in Hadd as ->. split; [|done].
    intros _ [v Hv]. done.
Qed.


(** ** Special tokens and the vocabulary *)

Lemma vocab_add_special_app items1 items2 vocab :
  vocab_add_special (items1 ++ items2) vocab
  = match vocab_add_special items1 vocab with
    | Ok vocab' => vocab_add_special items2 vocab'
    | Raise e => Raise e
    end.
Proof.
  revert vocab. induction items1 as [|[s idx] items1 IH]; intros vocab;
    [done|].
  cbn [app vocab_add_special]. destruct (str_encode s); [apply IH | done].
Qed.

(** What a rebuild after [add_special_token] gives: for a new string the
    vocabulary [_build_vocab] returns is the one it returned before the
    call with one more entry, the UTF-8 bytes of the string under the new
    identifier; it raises [UnicodeEncodeError] when the string cannot be
    encoded. *)
Theorem build_vocab_after_add_special_token (special_str : list Z)
    (self : tokenizer) (v : gmap Z (list Z)) :
  merges self ≠ [] →
  special_str ∉ od_keys (special_tokens self) →
  _build_vocab self = Ok v →
  _build_vocab (add_special_token special_str self).1.2
  = match str_encode special_str with
    | Ok bs =>
        Ok (<[256 + Z.of_nat (length (merges self))
                  + Z.of_nat (length (special_tokens self)) := bs]> v)
    | Raise _ => Raise UnicodeEncodeError
    end.
Proof.
  intros Hmerges Hfresh Hv. rewrite add_special_token_new by done.
  cbn [fst snd]. unfold _build_vocab in *. cbn [merges special_tokens].
  destruct (vocab_add_merges (merges self) byte_vocab) as [v1|]; [|done].
  cbn in *. rewrite vocab_add_special_app, Hv. cbn [vocab_add_special].
  unfold str_encode. by destruct (forallb is_scalar special_str).
Qed.

Lemma build_vocab_after_add_special_token_witness :
  merges trained_scenario ≠ []
  ∧ ([60; 115; 62] ∉ od_keys (special_tokens trained_scenario))
  ∧ _build_vocab trained_scenario = Ok (vocab trained_scenario)
  ∧ _build_vocab (add_special_token [60; 115; 62] trained_scenario).1.2
    = match str_encode [60; 115; 62] with
      | Ok bs =>
          Ok (<[256 + Z.of_nat (length (merges trained_scenario))
                    + Z.of_nat (length (special_tokens trained_scenario))
                := bs]> (vocab trained_scenario))
      | Raise _ => Raise UnicodeEncodeError
      end.
Proof.
  assert (merges trained_scenario ≠ []) as H1 by (vm_compute; discriminate).
  assert ([60; 115; 62] ∉ od_keys (special_tokens trained_scenario)) as H2
    by (apply (bool_decide_unpack _); vm_compute; exact I).
  assert (_build_vocab trained_scenario = Ok (vocab trained_scenario)) as H3
    by (vm_compute; reflexivity).
  split; [exact H1|]. split; [exact H2|]. split; [exact H3|].
  exact (build_vocab_after_add_special_token _ _ _ H1 H2 H3).
Defined.

Lemma add_special_token_rejected special_str self :
  merges self = [] ∨ special_str ∈ od_keys (special_tokens self) →
  (add_special_token special_str self).1.2 = self.
Proof.
  unfold add_special_token. intros Hcase.
  destruct (length (merges self) =? 0)%nat eqn:Hlen; [done|].
  destruct (od_get special_str (special_tokens self)) eqn:Hget; [done|].
  apply od_get_None in Hget. destruct Hcase as [Hnil|Hin]; [|done].
  by rewrite Hnil in Hlen.
Qed.

(** [add_special_token] keeps the identifiers contiguous: if the merges
    are numbered from 256 and the special tokens right after them, both
    without repeated keys, the same holds after the call, whatever the
    string. *)
Theorem add_special_token_contiguous (special_str : list Z)
    (self : tokenizer) :
  contiguous_ids self →
  contiguous_ids (add_special_token special_str self).1.2.
Proof.
  intros (Hmk & Hmi & Hsk & Hsi).
  destruct (decide (merges self = [])) as [Hnil|Hne].
  { rewrite add_special_token_rejected by (by left). done. }
  destruct (decide (special_str ∈ od_keys (special_tokens self)))
    as [Hin|Hout].
  { rewrite add_special_token_rejected by (by right). done. }
  rewrite add_special_token_new by done. cbn [fst snd].
  unfold contiguous_ids. cbn [merges special_tokens].
  split; [done|]. split; [done|]. split.
  - unfold od_keys in *. rewrite fmap_app. apply NoDup_app.
    split; [done|]. split; [|apply NoDup_singleton]. cbn.
    intros k Hk ->%list_elem_of_singleton. done.
  - rewrite fmap_app, Hsi, length_app, Nat2Z.inj_add, seqZ_app by lia.
    done.
Qed.

Lemma add_special_token_contiguous_witness :
  contiguous_ids trained_scenario
  ∧ contiguous_ids (add_special_token [60; 115; 62] trained_scenario).1.2.
Proof.
  assert (contiguous_ids trained_scenario) as H.
  { split; [apply (bool_decide_unpack _); vm_compute; exact I|].
    split; [vm_compute; reflexivity|].
    split; [apply (bool_decide_unpack _); vm_compute; exact I|].
    vm_compute; reflexivity. }
  split; [exact H|]. exact (add_special_token_contiguous _ _ H).
Defined.

(** ** [save] and the file system *)

(** [save] touches no other path. On a path that is a file and not a
    folder it raises [NotADirectoryError] and changes nothing. Otherwise a
    second [save] of the same tokenizer gives the same result and leaves
    the file system as the first one did. *)
Theorem save_frame (folder_name : string) (self : tokenizer)
    (fs : gmap string node) :
  (∀ other, other ≠ folder_name →
     (save folder_name self fs).2 !! other = fs !! other)
  ∧ (fs !! folder_name = Some RegularFile →
       save folder_name self fs = (Raise NotADirectoryError, fs))
  ∧ (fs !! folder_name ≠ Some RegularFile →
       save folder_name self (save folder_name self fs).2
       = save folder_name self fs).
Proof.
  unfold save at 1 2 4 5.
  destruct (write_lines (merge_row <$> od_keys (merges self)))
    as [mb mr] eqn:Hm.
  destruct (write_lines (special_row <$> od_keys (special_tokens self)))
    as [sb sr] eqn:Hs.
  destruct (fs !! folder_name) as [[d|]|] eqn:Hlook.
  - rewrite Hlook. split; [|split; [done|]].
    + intros other Hne. destruct mr; cbn [snd]; by rewrite lookup_insert_ne.
    + intros _. unfold save. rewrite Hm, Hs.
      destruct mr; cbn [snd]; rewrite !lookup_insert_eq, ?insert_insert_eq;
        done.
  - rewrite Hlook. split; [done|]. split; [done|]. by intros [].
  - rewrite lookup_insert_eq. split; [|split; [done|]].
    + intros other Hne. destruct mr; cbn [snd]; by rewrite !lookup_insert_ne.
    + intros _. unfold save. rewrite Hm, Hs.
      destruct mr; cbn [snd]; rewrite !lookup_insert_eq, ?insert_insert_eq;
        done.
Qed.

Lemma save_frame_witness :
  "other" ≠ "tok"
  ∧ (save "tok" trained_scenario {[ "other" := RegularFile ]}).2 !! "other"
    = ({[ "other" := RegularFile ]} : gmap string node) !! "other"
  ∧ ({[ "tok" := RegularFile ]} : gmap string node) !! "tok"
    = Some RegularFile
  ∧ save "tok" trained_scenario {[ "tok" := RegularFile ]}
    = (Raise NotADirectoryError, {[ "tok" := RegularFile ]})
  ∧ (∅ : gmap string node) !! "tok" ≠ Some RegularFile
  ∧ save "tok" trained_scenario (save "tok" trained_scenario ∅).2
    = save "tok" trained_scenario ∅.
Proof.
  assert ("other" ≠ "tok") as H1 by discriminate.
  assert (({[ "tok" := RegularFile ]} : gmap string node) !! "tok"
          = Some RegularFile) as H2 by (vm_compute; reflexivity).
  assert ((∅ : gmap string node) !! "tok" ≠ Some RegularFile) as H3
    by (vm_compute; discriminate).
  split; [exact H1|].
  split; [exact (proj1 (save_frame "tok" trained_scenario
                          {[ "other" := RegularFile ]}) "other" H1)|].
  split; [exact H2|].
  split; [exact (proj1 (proj2 (save_frame "tok" trained_scenario _)) H2)|].
  split; [exact H3|].
  exact (proj2 (proj2 (save_frame "tok" trained_scenario ∅)) H3).
Defined.

(** ** Rows that [load] reads *)

Lemma py_split_rows lines tail :
  Forall (fun line => newline ∉ line) lines → newline ∉ tail →
  py_split newline (concat ((fun line => line ++ [newline]) <$> lines) ++ tail)
  = lines ++ [tail].
Proof.
  intros Hlines Htail. induction Hlines as [|line lines Hline _ IH].
  - cbn. by apply py_split_no_sep.
  - rewrite fmap_cons. cbn [concat]. rewrite <- !app_assoc. cbn [app].
    rewrite py_split_app by done. by rewrite IH.
Qed.

(** [load] takes a row from each line that ends in a line feed and drops
    whatever follows the last line feed: a merges file whose last line is
    not terminated loads as the same file without that line does. *)
Theorem load_ignores_unterminated_row (folder_name : string)
    (self : tokenizer) (fs : gmap string node) (d : folder)
    (lines : list (list Z)) (tail mbytes : list Z) :
  fs !! folder_name = Some (Directory d) →
  read_text (tokenizer_merges_vm d)
  = Ok (concat ((fun line => line ++ [newline]) <$> lines) ++ tail) →
  Forall (fun line => newline ∉ line) lines →
  newline ∉ tail →
  read_text (Some mbytes)
  = Ok (concat ((fun line => line ++ [newline]) <$> lines)) →
  load folder_name self fs
  = load folder_name self
      (<[folder_name := Directory (Folder (Some mbytes)
                                     (tokenizer_special_vm d))]> fs).
Proof.
  intros Hd Hread Hlines Htail Hread'. unfold load.
  rewrite Hd, lookup_insert_eq. cbn [tokenizer_merges_vm tokenizer_special_vm].
  rewrite Hread, Hread'. unfold file_rows.
  rewrite py_split_rows by done.
  rewrite <- (app_nil_r (concat _)).
  rewrite py_split_rows by (done || apply not_elem_of_nil).
  by rewrite !removelast_last.
Qed.


(** ** Identifiers that [load] assigns *)

Lemma load_merges_numbered rows i merges keys :
  parse_rows rows = Ok keys →
  NoDup keys → (∀ k, k ∈ keys → k ∉ od_keys merges) →
  load_merges rows i merges
  = (Ok (), merges ++ zip keys (seqZ (i + 256) (Z.of_nat (length keys)))).
Proof.
  revert i merges keys.
  induction rows as [|row rows IH]; intros i merges keys; cbn [parse_rows].
  - intros [= <-] _ _. cbn. by rewrite app_nil_r.
  - cbn [load_merges]. destruct (parse_row row) as [key|]; [|done]. cbn.
    destruct (parse_rows rows) as [keys'|] eqn:Hrows; [|done]. cbn.
    intros [= <-] [Hkey Hnodup]%NoDup_cons Hfresh.
    rewrite od_set_fresh by (apply Hfresh; left).
    rewrite (IH _ _ keys') ; [|done|done|].
    + cbn [length]. rewrite Nat2Z.inj_succ, (seqZ_cons (i + 256)) by lia.
      cbn [zip zip_with]. rewrite <- app_assoc. cbn [app].
      replace (Z.succ (i + 256)) with (i + 1 + 256) by lia.
      by rewrite Z.pred_succ.
    + intros k Hk. unfold od_keys. rewrite fmap_app, elem_of_app.
      cbn. rewrite list_elem_of_singleton. intros [Hin| ->]; [|done].
      apply (Hfresh k); [by right | done].
Qed.

(** [load] into a fresh tokenizer numbers by line: when it returns
    normally and no row is repeated, the rule of row [i] of the merges
    file has identifier [256 + i] and the special token of row [i] has
    identifier [256 + number of merges + i], both in file order. *)
Theorem load_fresh_numbers_by_line (folder_name : string)
    (fs : gmap string node) (st : tokenizer) :
  load folder_name init fs = (Ok (), st) →
  ∃ d mtext stext keys,
    fs !! folder_name = Some (Directory d)
    ∧ read_text (tokenizer_merges_vm d) = Ok mtext
    ∧ read_text (tokenizer_special_vm d) = Ok stext
    ∧ parse_rows (file_rows mtext) = Ok keys
    ∧ (NoDup keys →
         merges st = zip keys (seqZ 256 (Z.of_nat (length keys)))
         ∧ (NoDup (file_rows stext) →
              special_tokens st
              = zip (file_rows stext)
                  (seqZ (256 + Z.of_nat (length keys))
                     (Z.of_nat (length (file_rows stext)))))).
Proof.
  intros (d & mtext & stext & Hd & Hmr & Hm & Hsr & Hs & _)%load_Ok.
  destruct (load_merges_Ok _ _ _ _ Hm) as (keys & Hkeys & _).
  exists d, mtext, stext, keys. repeat (split; [done|]).
  intros Hnodup.
  rewrite (load_merges_numbered _ _ _ keys Hkeys Hnodup) in Hm.
  2:{ intros k _. apply not_elem_of_nil. }
  injection Hm as Hm. cbn in Hm. split; [done|]. intros Hrows.
  rewrite Hs, load_special_saved; [|done|].
  2:{ intros k _. apply not_elem_of_nil. }
  cbn [special_tokens init app]. rewrite <- Hm, length_zip_with.
  rewrite length_seqZ. do 2 f_equal. lia.
Qed.


(** ** Instances of the further properties *)

(** A single token has no adjacent pair. *)
Lemma count_combinations_correct_witness :
  (length [97] < 2)%nat ∧ _count_combinations [97] = [].
Proof.
  assert (length [97] < 2)%nat as H by (vm_compute; lia).
  split; [exact H|].
  exact (proj2 (proj2 (proj2 (proj2 (count_combinations_correct [97])))) H).
Defined.

(** In ["aaabdaaabac"] the pair ["aa"] occurs four times and comes
    first. *)
Lemma top_pair_first_most_frequent_witness :
  top_pair_of (_count_combinations scenario_corpus) = Ok (97, 97)
  ∧ ∃ pre post,
      adjacent_pairs scenario_corpus = pre ++ (97, 97) :: post
      ∧ ((97, 97) ∉ pre)
      ∧ (∀ q, q ∈ pre →
           count_of q (adjacent_pairs scenario_corpus)
           < count_of (97, 97) (adjacent_pairs scenario_corpus))
      ∧ (∀ q, count_of q (adjacent_pairs scenario_corpus)
              ≤ count_of (97, 97) (adjacent_pairs scenario_corpus)).
Proof.
  split; [vm_compute; reflexivity|].
  apply (top_pair_first_most_frequent scenario_corpus (97, 97)).
  vm_compute; reflexivity.
Defined.

Lemma trained_merges_contiguous_witness :
  train scenario_corpus 259 init = (Ok (), trained_scenario)
  ∧ (merges trained_scenario).*2 = seqZ 256 (Z.max 0 (259 - 256))
  ∧ NoDup (od_keys (merges trained_scenario))
  ∧ Forall (fun rule => 0 ≤ rule.1.1 < rule.2 ∧ 0 ≤ rule.1.2 < rule.2)
      (merges trained_scenario).
Proof.
  split; [vm_compute; reflexivity|].
  apply (trained_merges_contiguous scenario_corpus 259 init).
  vm_compute; reflexivity.
Defined.

Lemma encode_within_vocab_witness :
  special_tokens init = []
  ∧ train scenario_corpus 259 init = (Ok (), trained_scenario)
  ∧ str_encode [97; 97; 233] = Ok [97; 97; 195; 169]
  ∧ ∃ tokens,
      encode trained_scenario [97; 97; 233] = Ok tokens
      ∧ Forall (fun t => 0 ≤ t < Z.max 256 259
                         ∧ is_Some (vocab trained_scenario !! t)) tokens.
Proof.
  split; [reflexivity|]. split; [vm_compute; reflexivity|].
  split; [vm_compute; reflexivity|].
  apply (encode_within_vocab scenario_corpus 259 init trained_scenario
           [97; 97; 233] [97; 97; 195; 169]);
    [reflexivity | vm_compute; reflexivity | vm_compute; reflexivity].
Defined.

Lemma special_token_not_decodable_witness :
  special_tokens init = []
  ∧ 256 < 259
  ∧ train scenario_corpus 259 init = (Ok (), trained_scenario)
  ∧ special_tokens (add_special_token [60; 115; 62] trained_scenario).1.2
    = [([60; 115; 62], 259)]
  ∧ decode (add_special_token [60; 115; 62] trained_scenario).1.2 [259]
    = Raise KeyError.
Proof.
  split; [reflexivity|]. split; [lia|]. split; [vm_compute; reflexivity|].
  apply (special_token_not_decodable scenario_corpus 259 init
           trained_scenario [60; 115; 62]);
    [reflexivity | lia | vm_compute; reflexivity].
Defined.

(** A rule that refers to the identifiers 300 and 301, which nothing
    defines. *)
Lemma build_vocab_undefined_reference_witness :
  _build_vocab (Tokenizer [((300, 301), 256)] [] byte_vocab) = Raise KeyError
  ∧ ¬ ∀ pre rule post,
        [((300, 301), 256)] = pre ++ rule :: post →
        (0 ≤ rule.1.1 < 256 ∨ rule.1.1 ∈ pre.*2)
        ∧ (0 ≤ rule.1.2 < 256 ∨ rule.1.2 ∈ pre.*2).
Proof.
  assert (_build_vocab (Tokenizer [((300, 301), 256)] [] byte_vocab)
          = Raise KeyError) as H by (vm_compute; reflexivity).
  split; [exact H|].
  exact (proj1 (proj1 (build_vocab_undefined_reference
                         (Tokenizer [((300, 301), 256)] [] byte_vocab))) H).
Defined.

(** A merges file ["97 97\n98"]: the row ["98"], which would not parse,
    is never read. *)
Lemma load_ignores_unterminated_row_witness :
  ({[ "tok" := Directory (Folder (Some [57; 55; 32; 57; 55; 10; 57; 56])
                            (Some [])) ]} : gmap string node) !! "tok"
  = Some (Directory (Folder (Some [57; 55; 32; 57; 55; 10; 57; 56]) (Some [])))
  ∧ load "tok" init
      {[ "tok" := Directory (Folder (Some [57; 55; 32; 57; 55; 10; 57; 56])
                               (Some [])) ]}
    = load "tok" init
        (<[ "tok" := Directory (Folder (Some [57; 55; 32; 57; 55; 10])
                                  (Some [])) ]>
           {[ "tok" := Directory (Folder
                                    (Some [57; 55; 32; 57; 55; 10; 57; 56])
                                    (Some [])) ]}).
Proof.
  split; [vm_compute; reflexivity|].
  apply (load_ignores_unterminated_row "tok" init _
           (Folder (Some [57; 55; 32; 57; 55; 10; 57; 56]) (Some []))
           [[57; 55; 32; 57; 55]] [57; 56] [57; 55; 32; 57; 55; 10]).
  - vm_compute; reflexivity.
  - vm_compute; reflexivity.
  - apply (bool_decide_unpack _); vm_compute; exact I.
  - apply (bool_decide_unpack _); vm_compute; exact I.
  - vm_compute; reflexivity.
Defined.

(** A merges file ["97 97\n"] and a special-token file ["<s>\n"]. *)
Lemma load_fresh_numbers_by_line_witness :
  load "tok" init
    {[ "tok" := Directory (Folder (Some [57; 55; 32; 57; 55; 10])
                             (Some [60; 115; 62; 10])) ]}
  = (Ok (),
     (load "tok" init
        {[ "tok" := Directory (Folder (Some [57; 55; 32; 57; 55; 10])
                                 (Some [60; 115; 62; 10])) ]}).2)
  ∧ merges (load "tok" init
              {[ "tok" := Directory (Folder (Some [57; 55; 32; 57; 55; 10])
                                       (Some [60; 115; 62; 10])) ]}).2
    = [((97, 97), 256)]
  ∧ special_tokens
      (load "tok" init
         {[ "tok" := Directory (Folder (Some [57; 55; 32; 57; 55; 10])
                                  (Some [60; 115; 62; 10])) ]}).2
    = [([60; 115; 62], 257)].
Proof.
  assert (load "tok" init
            {[ "tok" := Directory (Folder (Some [57; 55; 32; 57; 55; 10])
                                     (Some [60; 115; 62; 10])) ]}
          = (Ok (),
             (load "tok" init
                {[ "tok" := Directory (Folder (Some [57; 55; 32; 57; 55; 10])
                                         (Some [60; 115; 62; 10])) ]}).2))
    as Hload by (vm_compute; reflexivity).
  split; [exact Hload|].
  destruct (load_fresh_numbers_by_line _ _ _ Hload)
    as (d & mtext & stext & keys & Hd & Hmr & Hsr & Hkeys & Hnum).
  vm_compute in Hd. injection Hd as <-.
  vm_compute in Hmr. injection Hmr as <-.
  vm_compute in Hsr. injection Hsr as <-.
  vm_compute in Hkeys. injection Hkeys as <-.
  destruct Hnum as [Hm Hs];
    [apply (bool_decide_unpack _); vm_compute; exact I|].
  split; [exact Hm|]. apply Hs.
  apply (bool_decide_unpack _); vm_compute; exact I.
Defined.
